(** * PoolAllocator: a shallow embedding of src/PoolAllocator.h

    Pointers are addresses in [Z] with [0] standing for [nullptr].  The
    storage cells ([PoolAllocator<T>::Node]) live in a heap [gmap Z Node];
    each thread has its own [thread_local Pool], identified by the thread id,
    whose only field is the atomic [sentinel] (the free-list head).  The
    system allocator ([::operator new] / [::operator delete]) is an
    abstract function of the history of calls made to it, and every call is
    recorded in a log. *)

From stdpp Require Import base gmap list.
From Stdlib Require Import ZArith Lia.

Open Scope Z_scope.

(** ** Data model *)

(** Thread identity; it also names the thread's [thread_local Pool]. *)
Definition tid := nat.

(** [struct Node { union { T value; Node* next; }; Pool* pool; }]:
    [next] is the union member in use while the cell sits in a free list,
    [pool] the back-reference to the cache that minted the cell. *)
Record Node := mkNode { next : Z; pool : tid }.

(** Calls made to the system allocator.  [SysDelete p None] is the unsized
    [::operator delete(p)], [SysDelete p (Some b)] the sized one. *)
Inductive SysCall :=
| SysNew (bytes : Z) (addr : Z)
| SysDelete (addr : Z) (bytes : option Z).

Record State := mkState {
  heap : gmap Z Node;      (* storage cells currently minted *)
  pools : gmap tid Z;      (* [sentinel] of each thread's Pool *)
  log : list SysCall       (* calls to the system allocator, oldest first *)
}.

(** A [thread_local Pool] that was not yet touched is default-constructed
    with [sentinel = nullptr]. *)
Definition head (st : State) (t : tid) : Z := default 0 (pools st !! t).

Definition set_head (st : State) (t : tid) (p : Z) : State :=
  mkState (heap st) (<[t := p]> (pools st)) (log st).

Definition set_cell (st : State) (p : Z) (c : Node) : State :=
  mkState (<[p := c]> (heap st)) (pools st) (log st).

Definition emit (st : State) (e : SysCall) : State :=
  mkState (heap st) (pools st) (log st ++ [e]).

(** Outcome of an operation: a result, [std::bad_alloc] raised by
    [::operator new], or undefined behaviour (dereferencing a pointer that
    is not a cell). *)
Inductive Res (A : Type) :=
| Ret (a : A)
| BadAlloc
| Undef.
Arguments Ret {A} a.
Arguments BadAlloc {A}.
Arguments Undef {A}.

(** ** Object layout (LP64: pointers are 8 bytes, 8-aligned) *)

Definition ptr_size : Z := 8.

Definition round_up (x a : Z) : Z := ((x + a - 1) / a) * a.

Section Layout.
Variables sizeof_T alignof_T : Z.

(** [union { T value; Node* next; }] *)
Definition node_align : Z := Z.max alignof_T ptr_size.
Definition union_size : Z := round_up (Z.max sizeof_T ptr_size) node_align.
(** [sizeof(Node)]: the union followed by the [Pool*] back-reference. *)
Definition sizeof_Node : Z := round_up (union_size + ptr_size) node_align.
End Layout.

(** A [size_t] product [a * b] (LP64): it wraps modulo [2^64]. *)
Definition size_mul (a b : Z) : Z := (a * b) mod 2 ^ 64.

(** ** Operations *)

Section PoolAllocator.

(** [sizeof(T)] and [alignof(T)] of the element type. *)
Variables sizeof_T alignof_T : Z.

(** [::operator new(bytes)]: the address returned for a request of [bytes]
    bytes given the history of earlier calls; [None] is [std::bad_alloc]. *)
Variable sys_new : list SysCall -> Z -> option Z.

Definition operator_new (st : State) (bytes : Z) : Res (Z * State) :=
  match sys_new (log st) bytes with
  | Some a => Ret (a, emit st (SysNew bytes a))
  | None => BadAlloc
  end.

(** [PoolAllocator<T>::allocate(n)], run by thread [t] with no concurrent
    operation on its pool (the [compare_exchange] then succeeds at once). *)
Definition allocate (t : tid) (n : Z) (st : State) : Res (Z * State) :=
  if n =? 1 then
    let node := head st t in                     (* pool.load() *)
    if negb (node =? 0) then
      match heap st !! node with
      | Some c => Ret (node, set_head st t (next c))
                                           (* compare_exchange(node, node->next) *)
      | None => Undef
      end
    else
      match operator_new st (sizeof_Node sizeof_T alignof_T) with
      | Ret (a, st1) =>
          (* node->pool = &pool; the union is left uninitialised *)
          Ret (a, set_cell st1 a (mkNode 0 t))
      | BadAlloc => BadAlloc
      | Undef => Undef
      end
  else operator_new st (size_mul n (sizeof_Node sizeof_T alignof_T)).

(** [PoolAllocator<T>::deallocate(p, n)], run by thread [t]: note that [t]
    is never read. *)
Definition deallocate (t : tid) (p n : Z) (st : State) : Res State :=
  if (p =? 0) || (n =? 0) then Ret st
  else if n =? 1 then
    match heap st !! p with
    | Some c =>
        let q := pool c in
        (* node->next = node->pool->load();
           node->pool->compare_exchange(node->next, node) *)
        Ret (set_head (set_cell st p (mkNode (head st q) q)) q p)
    | None => Undef
    end
  else Ret (emit st (SysDelete p (Some (size_mul n sizeof_T)))).

(** The loop of [Pool::clear()], walking from [p]; [fuel] bounds the number
    of iterations (each iteration removes a cell from the heap). *)
Fixpoint clear_loop (fuel : nat) (t : tid) (p : Z) (st : State) : Res State :=
  match fuel with
  | O => Undef
  | S fuel' =>
      if p =? 0 then Ret st
      else
        match heap st !! p with
        | Some c =>
            let nx := next c in                          (* Node* next = p->next *)
            let st1 := set_head st t nx in               (* sentinel.store(next) *)
            let st2 := mkState (delete p (heap st1)) (pools st1)
                         (log st1 ++ [SysDelete p None]) in (* ::operator delete(p) *)
            clear_loop fuel' t nx st2                    (* p = next *)
        | None => Undef
        end
  end.

(** [PoolAllocator<T>::clear()] = [pool.clear()] on the calling thread. *)
Definition clear (t : tid) (st : State) : Res State :=
  clear_loop (S (size (heap st))) t (head st t) st.

(** Thread exit: [~Pool()] calls [clear()], then the pool is gone. *)
Definition teardown (t : tid) (st : State) : Res State :=
  match clear t st with
  | Ret st1 => Ret (mkState (heap st1) (delete t (pools st1)) (log st1))
  | BadAlloc => BadAlloc
  | Undef => Undef
  end.

End PoolAllocator.

(** [PoolAllocator<T>] has no data members. *)
Record PoolAllocator (T : Type) : Type := mkPoolAllocator { }.

(** [operator==(const PoolAllocator<T1>&, const PoolAllocator<T2>&)] *)
Definition pool_allocator_eq {T1 T2 : Type}
  (lhs : PoolAllocator T1) (rhs : PoolAllocator T2) : bool := true.

(** ** A concrete system allocator and layout, for running the model *)

(** A bump allocator: every request gets a fresh 64-byte-aligned block
    after [4096]; it never fails and never reuses an address. *)
Definition bump_new (l : list SysCall) (bytes : Z) : option Z :=
  Some (4096 + 64 * Z.of_nat (length l)).

(** [T = int]: [sizeof(int) = alignof(int) = 4]. *)
Definition int_allocate := allocate 4 4 bump_new.
Definition int_deallocate := deallocate 4.

Definition empty_state : State := mkState ∅ ∅ [].

Example sizeof_Node_int : sizeof_Node 4 4 = 16.
Proof. reflexivity. Qed.

Example sizeof_Node_char : sizeof_Node 1 1 = 16.
Proof. reflexivity. Qed.

Example sizeof_Node_big : sizeof_Node 24 8 = 32.
Proof. reflexivity. Qed.

Example sizeof_Node_overaligned : sizeof_Node 64 64 = 128.
Proof. reflexivity. Qed.

Example run_round_trip :
  match int_allocate 0%nat 1 empty_state with
  | Ret (p, st1) =>
      match int_deallocate 0%nat p 1 st1 with
      | Ret st2 =>
          match int_allocate 0%nat 1 st2 with
          | Ret (p', _) => p = 4096 /\ p' = 4096
          | _ => False
          end
      | _ => False
      end
  | _ => False
  end.
Proof. vm_compute. split; reflexivity. Qed.

(** ** Single-thread properties of the facade *)

(** The cell at the head of [t]'s free list, if any, was minted by [t]. *)
Definition head_owned (st : State) (t : tid) : Prop :=
  head st t <> 0 -> exists c, heap st !! head st t = Some c /\ pool c = t.

(** [::operator new] never returns [nullptr]. *)
Definition sys_nonnull (sys_new : list SysCall -> Z -> option Z) : Prop :=
  forall l b a, sys_new l b = Some a -> a <> 0.

(** Keep only the cache part (cells and pool heads) of a result. *)
Definition res_cache (r : Res (Z * State)) : Res (Z * (gmap Z Node * gmap tid Z)) :=
  match r with
  | Ret (p, st) => Ret (p, (heap st, pools st))
  | BadAlloc => BadAlloc
  | Undef => Undef
  end.

Lemma head_set_head_eq st t p : head (set_head st t p) t = p.
Proof. unfold head, set_head; simpl. by rewrite lookup_insert_eq. Qed.

Lemma head_set_head_ne st t u p : u <> t -> head (set_head st t p) u = head st u.
Proof. intros H. unfold head, set_head; simpl. by rewrite lookup_insert_ne. Qed.

Lemma sizeof_Node_gt (sizeof_T alignof_T : Z) :
  1 <= alignof_T -> sizeof_T < sizeof_Node sizeof_T alignof_T.
Proof.
  intros Ha. unfold sizeof_Node, union_size, node_align, round_up, ptr_size.
  set (a := Z.max alignof_T 8).
  assert (Ha8 : 8 <= a) by (unfold a; lia).
  assert (Hr : forall x, x <= (x + a - 1) / a * a).
  { intros x. pose proof (Z.mod_pos_bound (x + a - 1) a ltac:(lia)) as Hm.
    pose proof (Z.div_mod (x + a - 1) a ltac:(lia)) as Hd. lia. }
  pose proof (Hr (Z.max sizeof_T 8)).
  pose proof (Hr ((Z.max sizeof_T 8 + a - 1) / a * a + 8)). lia.
Qed.

Section Facade.
Variables sizeof_T alignof_T : Z.
Variable sys_new : list SysCall -> Z -> option Z.


(** C4: [deallocate(p, n)] with [p] null or [n == 0] returns the state
    unchanged: no cache, cell or system-allocator call is touched. *)
Theorem deallocate_null_or_zero_noop (t : tid) (p n : Z) (st : State) :
  p = 0 \/ n = 0 -> deallocate sizeof_T t p n st = Ret st.
Proof.
  intros [-> | ->]; unfold deallocate;
    [reflexivity | now rewrite orb_true_r].
Qed.

(** C5: [allocate(1)] on thread [t].  On a hit (non-empty cache) it returns
    the head cell and the head advances to that cell's [next]; nothing else
    changes.  On a miss (empty cache) it asks the system allocator for
    exactly one [sizeof(Node)] block, stamps it with back-reference [t], and
    returns it; other caches are unchanged; [std::bad_alloc] propagates. *)
Theorem allocate_one_spec (t : tid) (st : State) :
  (forall c, head st t <> 0 -> heap st !! head st t = Some c ->
     exists st', allocate sizeof_T alignof_T sys_new t 1 st = Ret (head st t, st') /\
       head st' t = next c /\ (forall u, u <> t -> head st' u = head st u) /\
       heap st' = heap st /\ log st' = log st) /\
  (head st t = 0 ->
     match sys_new (log st) (sizeof_Node sizeof_T alignof_T) with
     | Some a =>
         exists st', allocate sizeof_T alignof_T sys_new t 1 st = Ret (a, st') /\
           heap st' = <[a := mkNode 0 t]> (heap st) /\
           pools st' = pools st /\
           log st' = log st ++ [SysNew (sizeof_Node sizeof_T alignof_T) a]
     | None => allocate sizeof_T alignof_T sys_new t 1 st = BadAlloc
     end).
Proof.
  split.
  - intros c Hne Hc. eexists. split.
    + unfold allocate. simpl.
      destruct (Z.eqb_spec (head st t) 0); [contradiction|]. simpl.
      rewrite Hc. reflexivity.
    + split; [apply head_set_head_eq|].
      split; [intros u Hu; now apply head_set_head_ne|]. split; reflexivity.
  - intros H0. unfold allocate, operator_new. simpl.
    rewrite H0. simpl.
    destruct (sys_new (log st) _) as [a|]; [|reflexivity].
    eexists. split; [reflexivity|]. simpl. auto.
Qed.

(** C10: [allocate(0)] takes the bulk path: it requests [0 * sizeof(Node)]
    = 0 bytes from the system allocator and returns its pointer, with cells
    and caches unchanged. *)
Theorem allocate_zero_bulk (t : tid) (st : State) :
  allocate sizeof_T alignof_T sys_new t 0 st =
    match sys_new (log st) 0 with
    | Some a => Ret (a, mkState (heap st) (pools st) (log st ++ [SysNew 0 a]))
    | None => BadAlloc
    end.
Proof. reflexivity. Qed.

(** C3: [deallocate(p, 1)] by any thread [t] pushes the cell onto the cache
    named by its own back-reference [pool c]: that cache's head becomes [p]
    and [p]'s [next] its old head; every other cache, including [t]'s when
    [t] is not the owner, is unchanged. *)
Theorem deallocate_one_pushes_to_owner (t : tid) (p : Z) (c : Node) (st : State) :
  p <> 0 -> heap st !! p = Some c ->
  exists st', deallocate sizeof_T t p 1 st = Ret st' /\
    head st' (pool c) = p /\
    heap st' !! p = Some (mkNode (head st (pool c)) (pool c)) /\
    (forall u, u <> pool c -> head st' u = head st u) /\
    log st' = log st.
Proof.
  intros Hp Hc. eexists. split.
  - unfold deallocate.
    destruct (Z.eqb_spec p 0); [contradiction|]. simpl. rewrite Hc. reflexivity.
  - split; [apply head_set_head_eq|].
    split; [simpl; apply lookup_insert_eq|].
    split; [|reflexivity].
    intros u Hu. rewrite head_set_head_ne by exact Hu.
    reflexivity.
Qed.

Lemma push_then_pop (t : tid) (p : Z) (c : Node) (st1 : State) :
  p <> 0 -> heap st1 !! p = Some c -> pool c = t ->
  exists st2 st3, deallocate sizeof_T t p 1 st1 = Ret st2 /\
    allocate sizeof_T alignof_T sys_new t 1 st2 = Ret (p, st3).
Proof.
  intros Hp Hc Ho. subst t.
  destruct (deallocate_one_pushes_to_owner (pool c) p c st1 Hp Hc)
    as (st2 & Hd & Hh & Hcell & _ & _).
  exists st2. eexists. split; [exact Hd|].
  unfold allocate. simpl. rewrite Hh.
  destruct (Z.eqb_spec p 0); [contradiction|]. simpl.
  rewrite Hcell. reflexivity.
Qed.

(** C1: on one thread, [allocate(1)] returning [p], then [deallocate(p, 1)],
    then [allocate(1)] returns [p] again: the freed cell is recycled from
    the cache before the system allocator is consulted.  The hypotheses
    are that [::operator new] never yields [nullptr] and that the head of
    the thread's cache, if any, is one of its own cells. *)
Theorem round_trip_recycles (t : tid) (st : State) (p : Z) (st1 : State) :
  sys_nonnull sys_new -> head_owned st t ->
  allocate sizeof_T alignof_T sys_new t 1 st = Ret (p, st1) ->
  exists st2 st3, deallocate sizeof_T t p 1 st1 = Ret st2 /\
    allocate sizeof_T alignof_T sys_new t 1 st2 = Ret (p, st3).
Proof.
  intros Hnn Hown Ha. unfold allocate in Ha. simpl in Ha.
  destruct (Z.eqb_spec (head st t) 0) as [H0|H0]; simpl in Ha.
  - unfold operator_new in Ha.
    destruct (sys_new (log st) _) as [a|] eqn:Hs; [|discriminate].
    injection Ha as <- <-.
    apply (push_then_pop t a (mkNode 0 t)); [eapply Hnn; eauto| |reflexivity].
    simpl. apply lookup_insert_eq.
  - destruct (heap st !! head st t) as [c|] eqn:Hc; [|discriminate].
    injection Ha as <- <-.
    destruct (Hown H0) as (c' & Hc' & Ho). rewrite Hc in Hc'. injection Hc' as <-.
    apply (push_then_pop t (head st t) c); auto.
Qed.

(** C2 (defect): the bulk path requests [n * sizeof(Node)] bytes but
    releases [n * sizeof(T)] bytes, and [sizeof(T) < sizeof(Node)], so for
    every [n >= 2] whose request [n * sizeof(Node)] fits in [size_t] (so
    that neither [size_t] product wraps) the two byte counts differ. *)
Theorem bulk_release_size_differs (t t' : tid) (n : Z) (st : State) (p : Z)
    (st1 st2 : State) :
  1 <= sizeof_T -> 1 <= alignof_T -> 1 < n ->
  n * sizeof_Node sizeof_T alignof_T < 2 ^ 64 ->
  allocate sizeof_T alignof_T sys_new t n st = Ret (p, st1) ->
  deallocate sizeof_T t' p n st1 = Ret st2 ->
  p <> 0 ->
  log st1 = log st ++ [SysNew (n * sizeof_Node sizeof_T alignof_T) p] /\
  log st2 = log st1 ++ [SysDelete p (Some (n * sizeof_T))] /\
  n * sizeof_T < n * sizeof_Node sizeof_T alignof_T.
Proof.
  intros Hs Hal Hn Hb Ha Hd Hp.
  pose proof (sizeof_Node_gt sizeof_T alignof_T Hal) as Hlt.
  assert (HN : size_mul n (sizeof_Node sizeof_T alignof_T) = n * sizeof_Node sizeof_T alignof_T)
    by (apply Z.mod_small; nia).
  assert (HT : size_mul n sizeof_T = n * sizeof_T) by (apply Z.mod_small; nia).
  unfold allocate in Ha. destruct (Z.eqb_spec n 1); [lia|].
  unfold operator_new in Ha. rewrite HN in Ha.
  destruct (sys_new (log st) _) as [a|]; [|discriminate].
  injection Ha as <- <-.
  unfold deallocate in Hd. rewrite HT in Hd.
  destruct (Z.eqb_spec a 0); [contradiction|].
  destruct (Z.eqb_spec n 0); [lia|]. destruct (Z.eqb_spec n 1); [lia|].
  simpl in Hd. injection Hd as <-.
  split; [reflexivity|]. split; [reflexivity|]. nia.
Qed.

Lemma allocate_one_hit_cache_only (u : tid) (st st' : State) :
  heap st' = heap st -> pools st' = pools st -> head st u <> 0 ->
  res_cache (allocate sizeof_T alignof_T sys_new u 1 st') =
  res_cache (allocate sizeof_T alignof_T sys_new u 1 st).
Proof.
  intros Hh Hp Hne.
  assert (Hhd : head st' u = head st u) by (unfold head; now rewrite Hp).
  unfold allocate. simpl. rewrite Hhd.
  destruct (Z.eqb_spec (head st u) 0); [contradiction|]. simpl.
  rewrite Hh. destruct (heap st !! head st u); [|reflexivity].
  simpl. now rewrite Hh, Hp.
Qed.

(** C7 (as amended): a successful [allocate(n)] with [n > 1] followed by
    [deallocate(p, n)] leaves every cell and every cache head unchanged;
    only the system allocator saw the pair.  Hence any later [allocate(1)]
    that hits its cache returns the same cell and leaves the same cache as
    without the pair (on a miss the address comes from the system
    allocator, whose history now contains the pair). *)
Theorem bulk_pair_keeps_cache (t t' : tid) (n : Z) (st : State) (p : Z)
    (st1 st2 : State) :
  1 < n ->
  allocate sizeof_T alignof_T sys_new t n st = Ret (p, st1) ->
  deallocate sizeof_T t' p n st1 = Ret st2 ->
  heap st2 = heap st /\ pools st2 = pools st /\
  (exists extra, log st2 = log st ++ extra) /\
  (forall u, head st u <> 0 ->
     res_cache (allocate sizeof_T alignof_T sys_new u 1 st2) =
     res_cache (allocate sizeof_T alignof_T sys_new u 1 st)).
Proof.
  intros Hn Ha Hd.
  assert (Hst : heap st2 = heap st /\ pools st2 = pools st /\
                exists extra, log st2 = log st ++ extra).
  { unfold allocate in Ha. destruct (Z.eqb_spec n 1); [lia|].
    unfold operator_new in Ha.
    destruct (sys_new (log st) _) as [a|]; [|discriminate].
    injection Ha as <- <-.
    unfold deallocate in Hd.
    destruct (Z.eqb_spec a 0); simpl in Hd.
    { injection Hd as <-. simpl. eauto. }
    destruct (Z.eqb_spec n 0); [lia|]. destruct (Z.eqb_spec n 1); [lia|].
    injection Hd as <-. simpl. split; [reflexivity|]. split; [reflexivity|].
    eexists. now rewrite <- app_assoc. }
  destruct Hst as (Hh & Hp & Hl).
  split; [exact Hh|]. split; [exact Hp|]. split; [exact Hl|].
  intros u Hu. now apply allocate_one_hit_cache_only.
Qed.

End Facade.

(** C8: [operator==] on two [PoolAllocator]s is [true]; it reads no state,
    so this holds on every thread and whatever the caches hold. *)
Theorem pool_allocator_eq_true (T1 T2 : Type)
    (lhs : PoolAllocator T1) (rhs : PoolAllocator T2) :
  pool_allocator_eq lhs rhs = true.
Proof. reflexivity. Qed.

(** ** The free list and [clear()] *)

(** [chain h p l]: following [next] links from [p] through the cells of
    [h] visits exactly the cells [l], in order, and ends at [nullptr]. *)
Inductive chain (h : gmap Z Node) : Z -> list Z -> Prop :=
| chain_nil : chain h 0 []
| chain_cons p c l :
    p <> 0 -> h !! p = Some c -> chain h (next c) l -> chain h p (p :: l).

Lemma chain_det h p l1 l2 : chain h p l1 -> chain h p l2 -> l1 = l2.
Proof.
  intros H1. revert l2. induction H1 as [|p c l Hp Hc Hl IH]; intros l2 H2.
  - inversion H2; [reflexivity|contradiction].
  - inversion H2 as [Hp0|p' c' l' Hp' Hc' Hl']; [subst; contradiction|].
    subst. rewrite Hc in Hc'. injection Hc' as <-. f_equal. now apply IH.
Qed.

Lemma chain_from_elem h p l x :
  chain h p l -> x ∈ l -> exists l', chain h x l' /\ (length l' <= length l)%nat.
Proof.
  induction 1 as [|p c l Hp Hc Hl IH]; intros Hx.
  - exfalso. by apply not_elem_of_nil in Hx.
  - apply elem_of_cons in Hx as [->|Hx].
    + exists (p :: l). split; [econstructor; eauto|lia].
    + destruct (IH Hx) as (l' & Hl' & Hlen). exists l'. simpl. split; [exact Hl'|lia].
Qed.

(** A chain ending in [nullptr] never visits a cell twice. *)
Lemma chain_nodup h p l : chain h p l -> NoDup l.
Proof.
  induction 1 as [|p c l Hp Hc Hl IH]; [constructor|].
  constructor; [|exact IH].
  intros Hin. destruct (chain_from_elem _ _ _ _ Hl Hin) as (l' & Hl' & Hlen).
  assert (Heq : l' = p :: l) by (eapply chain_det; [exact Hl'|econstructor; eauto]).
  subst l'. simpl in Hlen. lia.
Qed.

Lemma chain_delete h p l q : chain h p l -> q ∉ l -> chain (delete q h) p l.
Proof.
  induction 1 as [|p c l Hp Hc Hl IH]; intros Hq; [constructor|].
  apply not_elem_of_cons in Hq as [Hqp Hq].
  econstructor; [exact Hp| |now apply IH].
  rewrite lookup_delete_ne by congruence. exact Hc.
Qed.

Lemma chain_length_size l : forall h p, chain h p l -> (length l <= size h)%nat.
Proof.
  induction l as [|q l IH]; intros h p Hl; simpl; [lia|].
  inversion Hl as [|p' c l' Hp Hc Hl']; subst.
  pose proof (chain_nodup _ _ _ Hl) as Hnd. apply NoDup_cons in Hnd as [Hq _].
  pose proof (IH (delete q h) (next c) (chain_delete _ _ _ _ Hl' Hq)) as Hle.
  rewrite map_size_delete_Some in Hle by eauto.
  pose proof (map_size_ne_0_lookup_2 h q ltac:(eauto)). lia.
Qed.

(** The cells resident in [t]'s free list. *)
Definition free_list (st : State) (t : tid) (l : list Z) : Prop :=
  chain (heap st) (head st t) l.

Lemma clear_loop_chain (t : tid) (l : list Z) :
  forall (fuel : nat) (st : State), chain (heap st) (head st t) l ->
  (length l < fuel)%nat ->
  exists st', clear_loop fuel t (head st t) st = Ret st' /\
    head st' t = 0 /\
    (forall u, u <> t -> head st' u = head st u) /\
    (forall q, heap st' !! q = if decide (q ∈ l) then None else heap st !! q) /\
    log st' = log st ++ map (fun q => SysDelete q None) l.
Proof.
  induction l as [|p l IH]; intros fuel st Hl Hf;
    (destruct fuel as [|fuel]; [simpl in Hf; lia|]).
  - inversion Hl as [H0|]. exists st. simpl. rewrite <- H0. simpl.
    split; [reflexivity|]. split; [reflexivity|].
    split; [reflexivity|]. split; [reflexivity|]. now rewrite app_nil_r.
  - pose proof (chain_nodup _ _ _ Hl) as Hnd. apply NoDup_cons in Hnd as [Hpl _].
    remember (head st t) as h0 eqn:Eh0.
    inversion Hl as [|p' c l' Hp Hc Hl']; subst p' l'.
    simpl. destruct (Z.eqb_spec p 0); [contradiction|].
    rewrite Hc.
    set (st2 := mkState (delete p (heap st)) (<[t := next c]> (pools st))
                  (log st ++ [SysDelete p None])).
    assert (Hh2 : head st2 t = next c) by apply (head_set_head_eq st).
    destruct (IH fuel st2) as (st' & Hrun & Ht & Hu & Hheap & Hlog).
    { rewrite Hh2. now apply chain_delete. }
    { simpl in Hf. lia. }
    rewrite Hh2 in Hrun. exists st'. split; [exact Hrun|].
    split; [exact Ht|].
    split; [intros u Hne; rewrite Hu by exact Hne; now apply (head_set_head_ne st)|].
    split.
    + intros q. rewrite Hheap. simpl.
      destruct (decide (q = p)) as [->|Hqp].
      * rewrite decide_False by exact Hpl. rewrite decide_True by set_solver.
        apply lookup_delete_eq.
      * rewrite lookup_delete_ne by congruence.
        destruct (decide (q ∈ l)); destruct (decide (q ∈ p :: l)); set_solver.
    + rewrite Hlog. simpl. now rewrite <- app_assoc.
Qed.

(** C6: when [t]'s free list holds the cells [l], [clear()] on [t]
    releases to the system allocator (unsized [::operator delete]) exactly
    the cells of [l], each once, in list order, and nothing else; it leaves
    [t]'s cache empty and the other caches untouched.  Thread teardown
    ([~Pool()], which calls [clear()]) releases the same cells. *)
Theorem clear_releases_free_list (t : tid) (st : State) (l : list Z) :
  free_list st t l ->
  (exists st', clear t st = Ret st' /\
     log st' = log st ++ map (fun q => SysDelete q None) l /\
     head st' t = 0 /\
     (forall u, u <> t -> head st' u = head st u) /\
     (forall q, heap st' !! q = if decide (q ∈ l) then None else heap st !! q)) /\
  (exists st', teardown t st = Ret st' /\
     log st' = log st ++ map (fun q => SysDelete q None) l /\
     pools st' !! t = None).
Proof.
  intros Hl. unfold free_list in Hl.
  pose proof (chain_length_size _ _ _ Hl) as Hsz.
  destruct (clear_loop_chain t l (S (size (heap st))) st Hl ltac:(lia))
    as (st' & Hrun & Ht & Hu & Hheap & Hlog).
  split.
  - exists st'. unfold clear. rewrite Hrun. auto.
  - eexists. unfold teardown, clear. rewrite Hrun. split; [reflexivity|].
    split; [exact Hlog|]. apply lookup_delete_eq.
Qed.

(** ** Interleaved pushes and pops

    The single-cell paths of [allocate] and [deallocate] split into their
    atomic steps on the shared [sentinel], so that concurrent threads can
    interleave.  Executions are sequentially consistent, and
    [compare_exchange_weak] is taken to fail only when the head differs
    from [expected] (no spurious failure); both restrictions keep a subset
    of the executions the C++ program can have. *)
Module Concurrent.

(** Owner popping in [allocate(1)]:
    [Node* node = pool.load(); if (node != nullptr)
       pool.compare_exchange(node, node->next);  return node;]
    where [compare_exchange(expected, desired)] loops
    [while (!sentinel.compare_exchange_weak(expected, desired)) {}]. *)
Inductive PopPc :=
| PopStart                      (* before pool.load() *)
| PopRead (node : Z)            (* loaded [node], about to read node->next *)
| PopCas (expected desired : Z) (* inside the compare_exchange loop *)
| PopDone (ret : Z).            (* returned [ret]; 0: went to ::operator new *)

(** Pushing in [deallocate(p, 1)]:
    [node->next = node->pool->load();
     node->pool->compare_exchange(node->next, node);] *)
Inductive PushPc :=
| PushStart (p : Z)
| PushCas (p : Z)
| PushDone.

Inductive Thread :=
| TPop (t : tid) (pc : PopPc)
| TPush (pc : PushPc).

Definition step_pop (t : tid) (pc : PopPc) (st : State) : Res (PopPc * State) :=
  match pc with
  | PopStart =>
      let node := head st t in
      if node =? 0 then Ret (PopDone 0, st) else Ret (PopRead node, st)
  | PopRead node =>
      match heap st !! node with
      | Some c => Ret (PopCas node (next c), st)   (* desired = node->next *)
      | None => Undef
      end
  | PopCas e d =>
      if head st t =? e then Ret (PopDone e, set_head st t d)
      else Ret (PopCas (head st t) d, st)          (* expected := sentinel *)
  | PopDone r => Ret (PopDone r, st)
  end.

Definition step_push (pc : PushPc) (st : State) : Res (PushPc * State) :=
  match pc with
  | PushStart p =>
      match heap st !! p with
      | Some c =>
          let q := pool c in
          Ret (PushCas p, set_cell st p (mkNode (head st q) q))
      | None => Undef
      end
  | PushCas p =>
      match heap st !! p with
      | Some c =>
          let q := pool c in
          if head st q =? next c then Ret (PushDone, set_head st q p)
          else Ret (PushCas p, set_cell st p (mkNode (head st q) q))
                                          (* expected (= node->next) := sentinel *)
      | None => Undef
      end
  | PushDone => Ret (PushDone, st)
  end.

Definition step_thread (th : Thread) (st : State) : Res (Thread * State) :=
  match th with
  | TPop t pc =>
      match step_pop t pc st with
      | Ret (pc', st') => Ret (TPop t pc', st')
      | BadAlloc => BadAlloc
      | Undef => Undef
      end
  | TPush pc =>
      match step_push pc st with
      | Ret (pc', st') => Ret (TPush pc', st')
      | BadAlloc => BadAlloc
      | Undef => Undef
      end
  end.

(** Let thread [i] take one atomic step. *)
Definition step (i : nat) (cfg : State * list Thread) : Res (State * list Thread) :=
  let '(st, ths) := cfg in
  match ths !! i with
  | Some th =>
      match step_thread th st with
      | Ret (th', st') => Ret (st', <[i := th']> ths)
      | BadAlloc => BadAlloc
      | Undef => Undef
      end
  | None => Undef
  end.

(** Run a schedule: the list of threads to step, in order. *)
Fixpoint run (sched : list nat) (cfg : State * list Thread) : Res (State * list Thread) :=
  match sched with
  | [] => Ret cfg
  | i :: sched' =>
      match step i cfg with
      | Ret cfg' => run sched' cfg'
      | BadAlloc => BadAlloc
      | Undef => Undef
      end
  end.

(** Cells handed out by finished pops. *)
Definition returned (ths : list Thread) : list Z :=
  ths ≫= fun th => match th with TPop _ (PopDone r) => if r =? 0 then [] else [r] | _ => [] end.

(** Cells being freed by push threads. *)
Definition pushed (ths : list Thread) : list Z :=
  ths ≫= fun th => match th with TPush (PushStart p) => [p] | _ => [] end.

(** Thread [0]'s cache holds cell [A = 16] ([next = nullptr]); cell
    [X = 32], also minted by thread [0], is outstanding. *)
Definition cell_A : Z := 16.
Definition cell_X : Z := 32.

Definition race_state : State :=
  mkState (<[cell_A := mkNode 0 0%nat]> (<[cell_X := mkNode 0 0%nat]> ∅))
          (<[0%nat := cell_A]> ∅) [].

(** Thread 0 is the owner in [allocate(1)]; thread 1 runs
    [deallocate(X, 1)]. *)
Definition race_threads : list Thread := [TPop 0%nat PopStart; TPush (PushStart cell_X)].

(** Without interleaving, the owner pops [A] and the push leaves [X] in
    the cache: every cell is accounted for. *)
Example race_sequential :
  match run [0; 0; 0; 1; 1]%nat (race_state, race_threads) with
  | Ret (st, ths) => free_list st 0%nat [cell_X] /\ returned ths = [cell_A]
  | _ => False
  end.
Proof.
  vm_compute. split; [|reflexivity].
  econstructor; [discriminate|reflexivity|constructor].
Qed.

(** C9 (defect): the owner's pop computes [desired = node->next] once,
    before the [compare_exchange] loop; when a concurrent push makes the
    first [compare_exchange_weak] fail, [expected] is refreshed to the
    pushed cell but [desired] is not, so the retry installs the old
    [node->next].  In the schedule below the owner loads [A], the other
    thread pushes [X] (head [X -> A]), and the owner's retry swaps [X] for
    [A]'s successor: the owner gets [X], the cache ends empty, and [A],
    which was in the cache, is lost. *)
Theorem pop_push_race_loses_cell :
  free_list race_state 0%nat [cell_A] /\ pushed race_threads = [cell_X] /\
  match run [0; 0; 1; 1; 0; 0]%nat (race_state, race_threads) with
  | Ret (st, ths) =>
      free_list st 0%nat [] /\ returned ths = [cell_X] /\
      cell_A ∉ returned ths
  | _ => False
  end.
Proof.
  split; [econstructor; [discriminate|reflexivity|constructor]|].
  split; [reflexivity|].
  vm_compute. split; [constructor|]. split; [reflexivity|].
  intros H. apply list_elem_of_singleton in H. discriminate.
Qed.

End Concurrent.

(** ** Witnesses and counterexamples on concrete runs ([T = int], bump
    allocator) *)

Lemma bump_new_nonnull : sys_nonnull bump_new.
Proof. intros l b a H. unfold bump_new in H. injection H as <-. lia. Qed.

(** State after thread 0 allocates one [int] cell from an empty cache. *)
Definition st_one_cell : State :=
  match int_allocate 0%nat 1 empty_state with Ret (_, s) => s | _ => empty_state end.

(** State after thread 0 allocates a bulk block of two [int]s. *)
Definition st_bulk : State :=
  match int_allocate 0%nat 2 empty_state with Ret (_, s) => s | _ => empty_state end.

(** Thread 0's cache holds the cells [16 -> 32 -> nullptr]. *)
Definition st_two_free : State :=
  mkState (<[16 := mkNode 32 0%nat]> (<[32 := mkNode 0 0%nat]> ∅))
          (<[0%nat := 16]> ∅) [].

Definition res_addr (r : Res (Z * State)) : option Z :=
  match r with Ret (p, _) => Some p | _ => None end.

Lemma round_trip_recycles_witness :
  sys_nonnull bump_new /\ head_owned empty_state 0%nat /\
  int_allocate 0%nat 1 empty_state = Ret (4096, st_one_cell) /\
  exists st2 st3, int_deallocate 0%nat 4096 1 st_one_cell = Ret st2 /\
    int_allocate 0%nat 1 st2 = Ret (4096, st3).
Proof.
  assert (H1 : sys_nonnull bump_new) by exact bump_new_nonnull.
  assert (H2 : head_owned empty_state 0%nat)
    by (intros H; exfalso; apply H; reflexivity).
  assert (H3 : int_allocate 0%nat 1 empty_state = Ret (4096, st_one_cell))
    by reflexivity.
  split; [exact H1|]. split; [exact H2|]. split; [exact H3|].
  exact (round_trip_recycles 4 4 bump_new 0%nat empty_state 4096 st_one_cell H1 H2 H3).
Defined.

Lemma bulk_release_size_differs_witness :
  int_allocate 0%nat 2 empty_state = Ret (4096, st_bulk) /\
  int_deallocate 0%nat 4096 2 st_bulk = Ret (emit st_bulk (SysDelete 4096 (Some 8))) /\
  log st_bulk = [SysNew 32 4096] /\
  log (emit st_bulk (SysDelete 4096 (Some 8))) = log st_bulk ++ [SysDelete 4096 (Some 8)] /\
  2 * 4 < 2 * sizeof_Node 4 4.
Proof.
  assert (Ha : int_allocate 0%nat 2 empty_state = Ret (4096, st_bulk)) by reflexivity.
  assert (Hd : int_deallocate 0%nat 4096 2 st_bulk
               = Ret (emit st_bulk (SysDelete 4096 (Some 8)))) by reflexivity.
  destruct (bulk_release_size_differs 4 4 bump_new 0%nat 0%nat 2 empty_state 4096
              st_bulk (emit st_bulk (SysDelete 4096 (Some 8)))
              ltac:(lia) ltac:(lia) ltac:(lia) ltac:(reflexivity) Ha Hd ltac:(lia))
    as (H1 & H2 & H3).
  split; [exact Ha|]. split; [exact Hd|]. split; [exact H1|]. split; [exact H2|].
  exact H3.
Defined.

(** A cell minted by thread 0 and freed by thread 1 goes back to thread 0's
    cache, while thread 1's cache stays empty. *)
Lemma deallocate_one_pushes_to_owner_witness :
  exists st', int_deallocate 1%nat 4096 1 st_one_cell = Ret st' /\
    head st' 0%nat = 4096 /\
    heap st' !! 4096 = Some (mkNode (head st_one_cell 0%nat) 0%nat) /\
    (forall u, u <> 0%nat -> head st' u = head st_one_cell u) /\
    log st' = log st_one_cell.
Proof.
  exact (deallocate_one_pushes_to_owner 4 1%nat 4096 (mkNode 0 0%nat) st_one_cell
           ltac:(lia) eq_refl).
Defined.

Lemma deallocate_null_or_zero_noop_witness :
  int_deallocate 1%nat 0 5 st_one_cell = Ret st_one_cell /\
  int_deallocate 1%nat 4096 0 st_one_cell = Ret st_one_cell.
Proof.
  split.
  - exact (deallocate_null_or_zero_noop 4 1%nat 0 5 st_one_cell (or_introl eq_refl)).
  - exact (deallocate_null_or_zero_noop 4 1%nat 4096 0 st_one_cell (or_intror eq_refl)).
Defined.

Lemma allocate_one_spec_witness :
  (exists st', int_allocate 0%nat 1 empty_state = Ret (4096, st') /\
     heap st' = <[4096 := mkNode 0 0%nat]> (heap empty_state) /\
     pools st' = pools empty_state /\
     log st' = log empty_state ++ [SysNew 16 4096]) /\
  (exists st', int_allocate 0%nat 1 st_two_free = Ret (16, st') /\
     head st' 0%nat = 32 /\ (forall u, u <> 0%nat -> head st' u = head st_two_free u) /\
     heap st' = heap st_two_free /\ log st' = log st_two_free).
Proof.
  split.
  - exact (proj2 (allocate_one_spec 4 4 bump_new 0%nat empty_state) eq_refl).
  - exact (proj1 (allocate_one_spec 4 4 bump_new 0%nat st_two_free)
             (mkNode 32 0%nat) ltac:(discriminate) eq_refl).
Defined.

Lemma clear_releases_free_list_witness :
  free_list st_two_free 0%nat [16; 32] /\
  (exists st', clear 0%nat st_two_free = Ret st' /\
     log st' = [SysDelete 16 None; SysDelete 32 None] /\
     head st' 0%nat = 0 /\
     (forall u, u <> 0%nat -> head st' u = head st_two_free u) /\
     (forall q, heap st' !! q =
        if decide (q ∈ [16; 32]) then None else heap st_two_free !! q)) /\
  (exists st', teardown 0%nat st_two_free = Ret st' /\
     log st' = [SysDelete 16 None; SysDelete 32 None] /\
     pools st' !! 0%nat = None).
Proof.
  assert (Hl : free_list st_two_free 0%nat [16; 32]).
  { econstructor; [lia|reflexivity|].
    econstructor; [lia|reflexivity|constructor]. }
  split; [exact Hl|].
  exact (clear_releases_free_list 0%nat st_two_free [16; 32] Hl).
Defined.

(** Thread 0, whose cache holds [16 -> 32], allocates a bulk block of two
    [int]s; thread 1 then releases it. *)
Definition st_two_bulk : State :=
  match int_allocate 0%nat 2 st_two_free with Ret (_, s) => s | _ => st_two_free end.

Definition st_two_bulk_freed : State := emit st_two_bulk (SysDelete 4096 (Some 8)).

Lemma bulk_pair_keeps_cache_witness :
  int_allocate 0%nat 2 st_two_free = Ret (4096, st_two_bulk) /\
  int_deallocate 1%nat 4096 2 st_two_bulk = Ret st_two_bulk_freed /\
  heap st_two_bulk_freed = heap st_two_free /\
  pools st_two_bulk_freed = pools st_two_free /\
  (exists extra, log st_two_bulk_freed = log st_two_free ++ extra) /\
  res_addr (int_allocate 0%nat 1 st_two_free) = Some 16 /\
  res_cache (int_allocate 0%nat 1 st_two_bulk_freed) =
  res_cache (int_allocate 0%nat 1 st_two_free).
Proof.
  assert (Ha : int_allocate 0%nat 2 st_two_free = Ret (4096, st_two_bulk)) by reflexivity.
  assert (Hd : int_deallocate 1%nat 4096 2 st_two_bulk = Ret st_two_bulk_freed)
    by reflexivity.
  destruct (bulk_pair_keeps_cache 4 4 bump_new 0%nat 1%nat 2 st_two_free 4096 st_two_bulk
              st_two_bulk_freed ltac:(lia) Ha Hd) as (Hh & Hp & Hl & Hc).
  split; [exact Ha|]. split; [exact Hd|]. split; [exact Hh|]. split; [exact Hp|].
  split; [exact Hl|]. split; [reflexivity|].
  apply Hc. discriminate.
Defined.

(** C7 (counterexample to the claim as stated): with a bump allocator,
    [allocate(1)] on an empty cache returns [4096]; after a bulk
    [allocate(2)] / [deallocate(p, 2)] pair it returns [4224] instead. *)
Lemma bulk_pair_changes_allocate_one :
  res_addr (int_allocate 0%nat 1 empty_state) = Some 4096 /\
  match int_allocate 0%nat 2 empty_state with
  | Ret (p, st1) =>
      match int_deallocate 0%nat p 2 st1 with
      | Ret st2 =>
          res_addr (int_allocate 0%nat 1 st2) = Some 4224 /\
          res_addr (int_allocate 0%nat 1 st2) <> res_addr (int_allocate 0%nat 1 empty_state)
      | _ => False
      end
  | _ => False
  end.
Proof. vm_compute. split; [reflexivity|]. split; [reflexivity|discriminate]. Qed.

(** ** The ownership invariant of the free lists

    Every thread's free list is a [nullptr]-terminated chain of cells, and
    every cell on thread [u]'s list carries back-reference [u].  Since a cell
    has one back-reference, the lists of different threads are disjoint. *)

Definition owned_by (st : State) (u : tid) (p : Z) : Prop :=
  exists c, heap st !! p = Some c /\ pool c = u.

Definition Inv (st : State) : Prop :=
  forall u, exists l, free_list st u l /\ Forall (owned_by st u) l.

(** No free list holds [p]: [p] is outstanding, not cached. *)
Definition in_no_free_list (st : State) (p : Z) : Prop :=
  forall u l, free_list st u l -> p ∉ l.

(** [::operator new] hands out addresses that are not live cells. *)
Definition sys_fresh (sys_new : list SysCall -> Z -> option Z) (st : State) : Prop :=
  forall b a, sys_new (log st) b = Some a -> heap st !! a = None.

Lemma chain_ext h h' x l :
  chain h x l -> (forall y, y ∈ l -> h' !! y = h !! y) -> chain h' x l.
Proof.
  induction 1 as [|p c l Hp Hc Hl IH]; intros Hext; [constructor|].
  econstructor; [exact Hp| |apply IH; intros y Hy; apply Hext; set_solver].
  rewrite Hext by set_solver. exact Hc.
Qed.

Lemma chain_in_heap h x l y : chain h x l -> y ∈ l -> is_Some (h !! y).
Proof.
  induction 1 as [|p c l Hp Hc Hl IH]; intros Hy; [set_solver|].
  apply elem_of_cons in Hy as [->|Hy]; [eauto|auto].
Qed.

Lemma Forall_owned_ext st st' u l :
  Forall (owned_by st u) l -> (forall y, y ∈ l -> heap st' !! y = heap st !! y) ->
  Forall (owned_by st' u) l.
Proof.
  intros Hf Hext. apply Forall_forall. intros y Hy.
  destruct (proj1 (Forall_forall _ _) Hf y Hy) as (c & Hc & Ho).
  exists c. now rewrite Hext.
Qed.

Lemma owned_by_unique st u v p : owned_by st u p -> owned_by st v p -> u = v.
Proof. intros (c & Hc & <-) (c' & Hc' & <-). congruence. Qed.

Lemma Inv_same_cache st st' :
  heap st' = heap st -> pools st' = pools st -> Inv st -> Inv st'.
Proof.
  intros Hh Hp HI u. destruct (HI u) as (l & Hl & Ho). exists l.
  unfold free_list, owned_by, head in *. rewrite Hh, Hp. auto.
Qed.

(** The empty state (no cell minted, no pool touched) satisfies the
    invariant. *)
Lemma Inv_empty : Inv empty_state.
Proof. intros u. exists []. split; [constructor|constructor]. Qed.

Section Invariant.
Variables sizeof_T alignof_T : Z.
Variable sys_new : list SysCall -> Z -> option Z.

Lemma allocate_Inv (t : tid) (n : Z) (st : State) (p : Z) (st1 : State) :
  sys_fresh sys_new st -> Inv st ->
  allocate sizeof_T alignof_T sys_new t n st = Ret (p, st1) -> Inv st1.
Proof.
  intros Hfr HI Ha. unfold allocate in Ha.
  destruct (Z.eqb_spec n 1) as [_|_].
  - destruct (Z.eqb_spec (head st t) 0) as [H0|H0]; simpl in Ha.
    + unfold operator_new in Ha.
      destruct (sys_new (log st) _) as [a|] eqn:Hs; [|discriminate].
      injection Ha as <- <-. pose proof (Hfr _ _ Hs) as Ha.
      intros u. destruct (HI u) as (l & Hl & Ho). exists l.
      assert (Hext : forall y, y ∈ l -> <[a := mkNode 0 t]> (heap st) !! y = heap st !! y).
      { intros y Hy. destruct (chain_in_heap _ _ _ _ Hl Hy) as [cy Hcy].
        rewrite lookup_insert_ne; [reflexivity|congruence]. }
      split; [exact (chain_ext _ _ _ _ Hl Hext)|]. now apply (Forall_owned_ext st).
    + destruct (heap st !! head st t) as [c|] eqn:Hc; [|discriminate].
      injection Ha as <- <-. intros u.
      destruct (decide (u = t)) as [->|Hut].
      * destruct (HI t) as (l & Hl & Ho). unfold free_list in Hl.
        inversion Hl as [Hz|p' c' l' Hp Hc' Hl']; [congruence|].
        rewrite Hc in Hc'. injection Hc' as <-.
        exists l'. split.
        { unfold free_list. rewrite head_set_head_eq. exact Hl'. }
        { rewrite <- H1 in Ho. apply Forall_cons in Ho as [_ Ho]. exact Ho. }
      * destruct (HI u) as (l & Hl & Ho). exists l.
        unfold free_list. rewrite head_set_head_ne by exact Hut. auto.
  - unfold operator_new in Ha.
    destruct (sys_new (log st) _) as [a|]; [|discriminate].
    injection Ha as <- <-. now apply (Inv_same_cache st).
Qed.

(** X: [allocate(n)] keeps the invariant, provided [::operator new] does
    not return the address of a live cell. *)
Theorem allocate_preserves_Inv (t : tid) (n : Z) (st : State) (p : Z) (st1 : State) :
  sys_fresh sys_new st -> Inv st ->
  allocate sizeof_T alignof_T sys_new t n st = Ret (p, st1) -> Inv st1.
Proof. exact (allocate_Inv t n st p st1). Qed.

Lemma allocate_one_outstanding (t : tid) (st : State) (p : Z) (st1 : State) :
  sys_fresh sys_new st -> Inv st ->
  allocate sizeof_T alignof_T sys_new t 1 st = Ret (p, st1) ->
  owned_by st1 t p /\ in_no_free_list st1 p.
Proof.
  intros Hfr HI Ha.
  unfold allocate in Ha. simpl in Ha.
  destruct (Z.eqb_spec (head st t) 0) as [H0|H0]; simpl in Ha.
  - unfold operator_new in Ha.
    destruct (sys_new (log st) _) as [a|] eqn:Hs; [|discriminate].
    injection Ha as <- <-. pose proof (Hfr _ _ Hs) as Ha.
    split; [exists (mkNode 0 t); split; [apply lookup_insert_eq|reflexivity]|].
    intros u l Hl Hin.
    destruct (HI u) as (l0 & Hl0 & _).
    assert (Hext : forall y, y ∈ l0 -> <[a := mkNode 0 t]> (heap st) !! y = heap st !! y).
    { intros y Hy. destruct (chain_in_heap _ _ _ _ Hl0 Hy) as [cy Hcy].
      rewrite lookup_insert_ne; [reflexivity|congruence]. }
    pose proof (chain_ext _ _ _ _ Hl0 Hext) as Hl0'.
    assert (l = l0) as -> by (eapply chain_det; [exact Hl|exact Hl0']).
    destruct (chain_in_heap _ _ _ _ Hl0 Hin) as [ca Hca]. congruence.
  - destruct (heap st !! head st t) as [c|] eqn:Hc; [|discriminate].
    injection Ha as <- <-.
    destruct (HI t) as (l & Hl & Ho). unfold free_list in Hl.
    inversion Hl as [Hz|p' c' l' Hp Hc' Hl']; [congruence|].
    rewrite Hc in Hc'. injection Hc' as <-.
    rewrite <- H1 in Ho. apply Forall_cons in Ho as [Hown _].
    split; [exact Hown|].
    intros u l2 Hl2 Hin.
    destruct (decide (u = t)) as [->|Hut].
    + unfold free_list in Hl2. rewrite head_set_head_eq in Hl2.
      assert (l2 = l') as -> by (eapply chain_det; [exact Hl2|exact Hl']).
      pose proof (chain_nodup _ _ _ Hl) as Hnd. rewrite <- H1 in Hnd.
      apply NoDup_cons in Hnd as [Hnot _]. contradiction.
    + destruct (HI u) as (lu & Hlu & Hou).
      unfold free_list in Hl2. rewrite head_set_head_ne in Hl2 by exact Hut.
      assert (l2 = lu) as -> by (eapply chain_det; [exact Hl2|exact Hlu]).
      apply Hut. eapply owned_by_unique; [|exact Hown].
      exact (proj1 (Forall_forall _ _) Hou _ Hin).
Qed.

Lemma deallocate_Inv (t : tid) (p n : Z) (st st1 : State) :
  Inv st -> in_no_free_list st p ->
  deallocate sizeof_T t p n st = Ret st1 -> Inv st1.
Proof.
  intros HI Hnot Hd. unfold deallocate in Hd.
  destruct (Z.eqb_spec p 0) as [_|Hp0]; [injection Hd as <-; exact HI|].
  destruct (Z.eqb_spec n 0) as [_|_]; [injection Hd as <-; exact HI|].
  simpl in Hd. destruct (Z.eqb_spec n 1) as [_|_].
  - destruct (heap st !! p) as [c|] eqn:Hc; [|discriminate].
    injection Hd as <-. set (q := pool c).
    set (h1 := <[p := mkNode (head st q) q]> (heap st)).
    assert (Hext : forall u l, free_list st u l -> forall y, y ∈ l -> h1 !! y = heap st !! y).
    { intros u l Hl y Hy. unfold h1. rewrite lookup_insert_ne; [reflexivity|].
      intros ->. exact (Hnot u l Hl Hy). }
    intros u. destruct (decide (u = q)) as [->|Huq].
    + destruct (HI q) as (l & Hl & Ho). exists (p :: l). split.
      * unfold free_list. rewrite head_set_head_eq.
        econstructor; [exact Hp0|apply lookup_insert_eq|].
        exact (chain_ext _ _ _ _ Hl (Hext q l Hl)).
      * constructor; [exists (mkNode (head st q) q); split; [apply lookup_insert_eq|reflexivity]|].
        apply (Forall_owned_ext st); [exact Ho|exact (Hext q l Hl)].
    + destruct (HI u) as (l & Hl & Ho). exists l. split.
      * unfold free_list. rewrite head_set_head_ne by exact Huq.
        exact (chain_ext _ _ _ _ Hl (Hext u l Hl)).
      * apply (Forall_owned_ext st); [exact Ho|exact (Hext u l Hl)].
  - injection Hd as <-. now apply (Inv_same_cache st).
Qed.

(** X: [deallocate(p, n)] keeps the invariant, provided [p] is not already
    in a free list (no double free). *)
Theorem deallocate_preserves_Inv (t : tid) (p n : Z) (st st1 : State) :
  Inv st -> in_no_free_list st p ->
  deallocate sizeof_T t p n st = Ret st1 -> Inv st1.
Proof. exact (deallocate_Inv t p n st st1). Qed.

End Invariant.

Lemma clear_keeps_Inv (t : tid) (st st1 : State) :
  Inv st -> clear t st = Ret st1 ->
  Inv st1 /\ head st1 t = 0 /\ (forall u, u <> t -> head st1 u = head st u).
Proof.
  intros HI Hc. destruct (HI t) as (lt & Hlt & Hot).
  pose proof (chain_length_size _ _ _ Hlt) as Hsz.
  destruct (clear_loop_chain t lt (S (size (heap st))) st Hlt ltac:(lia))
    as (st' & Hrun & Ht & Hu & Hheap & _).
  unfold clear in Hc. rewrite Hrun in Hc. injection Hc as <-.
  split; [|split; [exact Ht|exact Hu]].
  intros u. destruct (decide (u = t)) as [->|Hut].
  - exists []. split; [unfold free_list; rewrite Ht; constructor|constructor].
  - destruct (HI u) as (l & Hl & Ho).
    assert (Hext : forall y, y ∈ l -> heap st' !! y = heap st !! y).
    { intros y Hy. rewrite Hheap. destruct (decide (y ∈ lt)) as [Hyt|]; [|reflexivity].
      exfalso. apply Hut. eapply owned_by_unique.
      - exact (proj1 (Forall_forall _ _) Ho y Hy).
      - exact (proj1 (Forall_forall _ _) Hot y Hyt). }
    exists l. split.
    + unfold free_list. rewrite Hu by exact Hut. exact (chain_ext _ _ _ _ Hl Hext).
    + exact (Forall_owned_ext st _ u l Ho Hext).
Qed.

(** X: [clear()] and thread teardown keep the invariant: the calling
    thread's cache becomes empty and the other threads' free lists, which
    hold none of the released cells, stay intact. *)
Theorem clear_teardown_preserve_Inv (t : tid) (st : State) :
  Inv st ->
  (forall st1, clear t st = Ret st1 -> Inv st1) /\
  (forall st2, teardown t st = Ret st2 -> Inv st2).
Proof.
  intros HI. split.
  - intros st1 Hc. exact (proj1 (clear_keeps_Inv t st st1 HI Hc)).
  - intros st2 Htd. unfold teardown in Htd.
    destruct (clear t st) as [st1| |] eqn:Hc; try discriminate.
    injection Htd as <-.
    destruct (clear_keeps_Inv t st st1 HI Hc) as (HI1 & Ht & _).
    intros u. destruct (HI1 u) as (l & Hl & Ho).
    destruct (decide (u = t)) as [->|Hut].
    + exists []. split; [|constructor].
      unfold free_list, head. simpl. rewrite lookup_delete_eq. constructor.
    + exists l. split; [|exact Ho].
      unfold free_list, head in *. simpl. rewrite lookup_delete_ne by congruence.
      exact Hl.
Qed.

Lemma Inv_head_owned st t : Inv st -> head_owned st t.
Proof.
  intros HI Hne. destruct (HI t) as (l & Hl & Ho). unfold free_list in Hl.
  inversion Hl as [Hz|p c l' Hp Hc Hl']; [congruence|]. subst l.
  apply Forall_cons in Ho as [Hown _]. exact Hown.
Qed.

(** ** Client runs: outstanding cells are never handed out twice *)

(** A call a client makes, on thread [u]. *)
Inductive Op :=
| OpAllocate (u : tid) (n : Z)
| OpDeallocate (u : tid) (q n : Z)
| OpClear (u : tid).

Lemma in_no_free_list_same_cache st st' p :
  heap st' = heap st -> pools st' = pools st ->
  in_no_free_list st p -> in_no_free_list st' p.
Proof.
  intros Hh Hp Hnot u l Hl. apply (Hnot u l).
  unfold free_list, head in *. rewrite Hh, Hp in Hl. exact Hl.
Qed.

Lemma owned_by_same_at st st' u p :
  heap st' !! p = heap st !! p -> owned_by st u p -> owned_by st' u p.
Proof. intros Hh (c & Hc & Ho). exists c. now rewrite Hh. Qed.

Section Outstanding.
Variables sizeof_T alignof_T : Z.
Variable sys_new : list SysCall -> Z -> option Z.

(** A run of client calls from a state to a state, with the addresses the
    [allocate] calls return, in order.  The client keeps the allocator's
    preconditions: [::operator new] is asked only when it returns no live
    cell, and no cell is freed while it sits in a free list (no double
    free). *)
Inductive good_run : State -> list Op -> list Z -> State -> Prop :=
| good_run_nil st : good_run st [] [] st
| good_run_allocate st u n q st1 ops rets st2 :
    sys_fresh sys_new st ->
    allocate sizeof_T alignof_T sys_new u n st = Ret (q, st1) ->
    good_run st1 ops rets st2 ->
    good_run st (OpAllocate u n :: ops) (q :: rets) st2
| good_run_deallocate st u q n st1 ops rets st2 :
    in_no_free_list st q ->
    deallocate sizeof_T u q n st = Ret st1 ->
    good_run st1 ops rets st2 ->
    good_run st (OpDeallocate u q n :: ops) rets st2
| good_run_clear st u st1 ops rets st2 :
    clear u st = Ret st1 ->
    good_run st1 ops rets st2 ->
    good_run st (OpClear u :: ops) rets st2.

Lemma allocate_keeps_outstanding (t u : tid) (n : Z) (st : State) (p q : Z) (st1 : State) :
  sys_fresh sys_new st -> Inv st -> owned_by st t p -> in_no_free_list st p ->
  allocate sizeof_T alignof_T sys_new u n st = Ret (q, st1) ->
  q <> p /\ owned_by st1 t p /\ in_no_free_list st1 p.
Proof.
  intros Hfr HI Hown Hnot Ha. unfold allocate in Ha.
  destruct (Z.eqb_spec n 1) as [_|_].
  - destruct (Z.eqb_spec (head st u) 0) as [H0|H0]; simpl in Ha.
    + unfold operator_new in Ha.
      destruct (sys_new (log st) _) as [a|] eqn:Hs; [|discriminate].
      injection Ha as <- <-. pose proof (Hfr _ _ Hs) as Ha.
      destruct Hown as (cp & Hcp & Hop).
      assert (Hap : a <> p) by congruence.
      split; [exact Hap|]. split.
      * exists cp. split; [simpl; rewrite lookup_insert_ne by congruence; exact Hcp|exact Hop].
      * intros u' l2 Hl2. destruct (HI u') as (l0 & Hl0 & _).
        assert (Hext : forall y, y ∈ l0 -> <[a := mkNode 0 u]> (heap st) !! y = heap st !! y).
        { intros y Hy. destruct (chain_in_heap _ _ _ _ Hl0 Hy) as [cy Hcy].
          rewrite lookup_insert_ne; [reflexivity|congruence]. }
        pose proof (chain_ext _ _ _ _ Hl0 Hext) as Hl0'.
        assert (l2 = l0) as -> by (eapply chain_det; [exact Hl2|exact Hl0']).
        exact (Hnot u' l0 Hl0).
    + destruct (heap st !! head st u) as [c|] eqn:Hc; [|discriminate].
      injection Ha as <- <-.
      destruct (HI u) as (l & Hl & _). unfold free_list in Hl.
      inversion Hl as [Hz|p' c' l' Hp Hc' Hl']; [congruence|].
      rewrite Hc in Hc'. injection Hc' as <-.
      pose proof (Hnot u l Hl) as Hpl. rewrite <- H1 in Hpl.
      apply not_elem_of_cons in Hpl as [Hpq Hpl'].
      split; [congruence|]. split; [exact Hown|].
      intros u' l2 Hl2. destruct (decide (u' = u)) as [->|Hu].
      * unfold free_list in Hl2. rewrite head_set_head_eq in Hl2.
        assert (l2 = l') as -> by (eapply chain_det; [exact Hl2|exact Hl']).
        exact Hpl'.
      * apply (Hnot u' l2). unfold free_list in *.
        rewrite head_set_head_ne in Hl2 by exact Hu. exact Hl2.
  - unfold operator_new in Ha.
    destruct (sys_new (log st) _) as [a|] eqn:Hs; [|discriminate].
    injection Ha as <- <-. pose proof (Hfr _ _ Hs) as Ha.
    destruct Hown as (cp & Hcp & Hop).
    split; [congruence|]. split; [exists cp; split; [exact Hcp|exact Hop]|].
    exact (in_no_free_list_same_cache st _ p eq_refl eq_refl Hnot).
Qed.

Lemma deallocate_keeps_outstanding (t u : tid) (q n : Z) (st : State) (p : Z) (st1 : State) :
  Inv st -> in_no_free_list st q -> q <> p ->
  owned_by st t p -> in_no_free_list st p ->
  deallocate sizeof_T u q n st = Ret st1 ->
  owned_by st1 t p /\ in_no_free_list st1 p.
Proof.
  intros HI Hq Hqp Hown Hnot Hd. unfold deallocate in Hd.
  destruct (Z.eqb_spec q 0) as [_|Hq0]; [injection Hd as <-; auto|].
  destruct (Z.eqb_spec n 0) as [_|_]; [injection Hd as <-; auto|].
  simpl in Hd. destruct (Z.eqb_spec n 1) as [_|_].
  - destruct (heap st !! q) as [c|] eqn:Hc; [|discriminate].
    injection Hd as <-. set (o := pool c).
    set (h1 := <[q := mkNode (head st o) o]> (heap st)).
    assert (Hext : forall u' l, free_list st u' l -> forall y, y ∈ l -> h1 !! y = heap st !! y).
    { intros u' l Hl y Hy. unfold h1. rewrite lookup_insert_ne; [reflexivity|].
      intros ->. exact (Hq u' l Hl Hy). }
    split.
    + apply (owned_by_same_at st); [|exact Hown]. simpl.
      rewrite lookup_insert_ne by congruence. reflexivity.
    + intros u' l2 Hl2. unfold free_list in Hl2.
      destruct (HI u') as (l & Hl & _).
      pose proof (chain_ext _ _ _ _ Hl (Hext u' l Hl)) as Hl1.
      destruct (decide (u' = o)) as [->|Huo].
      * rewrite head_set_head_eq in Hl2.
        assert (Hl2' : chain h1 q (q :: l))
          by (econstructor; [exact Hq0|apply lookup_insert_eq|exact Hl1]).
        assert (l2 = q :: l) as -> by (eapply chain_det; [exact Hl2|exact Hl2']).
        apply not_elem_of_cons. split; [congruence|exact (Hnot o l Hl)].
      * rewrite head_set_head_ne in Hl2 by exact Huo.
        assert (l2 = l) as -> by (eapply chain_det; [exact Hl2|exact Hl1]).
        exact (Hnot u' l Hl).
  - injection Hd as <-. split; [exact Hown|].
    exact (in_no_free_list_same_cache st _ p eq_refl eq_refl Hnot).
Qed.

Lemma clear_keeps_outstanding (t u : tid) (st : State) (p : Z) (st1 : State) :
  Inv st -> owned_by st t p -> in_no_free_list st p ->
  clear u st = Ret st1 ->
  owned_by st1 t p /\ in_no_free_list st1 p.
Proof.
  intros HI Hown Hnot Hc. destruct (HI u) as (lt & Hlt & Hot).
  pose proof (chain_length_size _ _ _ Hlt) as Hsz.
  destruct (clear_loop_chain u lt (S (size (heap st))) st Hlt ltac:(lia))
    as (st' & Hrun & Ht & Hu & Hheap & _).
  unfold clear in Hc. rewrite Hrun in Hc. injection Hc as <-.
  split.
  - apply (owned_by_same_at st); [|exact Hown].
    rewrite Hheap. rewrite decide_False by exact (Hnot u lt Hlt). reflexivity.
  - intros u' l2 Hl2. unfold free_list in Hl2.
    destruct (decide (u' = u)) as [->|Hu'].
    + rewrite Ht in Hl2. inversion Hl2; [set_solver|contradiction].
    + destruct (HI u') as (l & Hl & Ho).
      assert (Hext : forall y, y ∈ l -> heap st' !! y = heap st !! y).
      { intros y Hy. rewrite Hheap. destruct (decide (y ∈ lt)) as [Hyt|]; [|reflexivity].
        exfalso. apply Hu'. eapply owned_by_unique.
        - exact (proj1 (Forall_forall _ _) Ho y Hy).
        - exact (proj1 (Forall_forall _ _) Hot y Hyt). }
      rewrite Hu in Hl2 by exact Hu'.
      assert (l2 = l) as -> by (eapply chain_det; [exact Hl2|exact (chain_ext _ _ _ _ Hl Hext)]).
      exact (Hnot u' l Hl).
Qed.

(** X: the cell [p] that [allocate(1)] hands out to thread [t] cannot be
    handed out again before it is freed: along any later run of client
    calls, on any threads, that never passes [p] to [deallocate], no
    [allocate] returns [p], and [p] stays a cell of [t] that is in no free
    list. *)
Theorem allocate_one_result_outstanding (t : tid) (st : State) (p : Z) (st1 : State)
    (ops : list Op) (rets : list Z) (st2 : State) :
  sys_fresh sys_new st -> Inv st ->
  allocate sizeof_T alignof_T sys_new t 1 st = Ret (p, st1) ->
  good_run st1 ops rets st2 ->
  (forall u n, OpDeallocate u p n ∉ ops) ->
  (p ∉ rets) /\ owned_by st2 t p /\ in_no_free_list st2 p.
Proof.
  intros Hfr HI Ha Hrun Hops.
  pose proof (allocate_Inv sizeof_T alignof_T sys_new t 1 st p st1 Hfr HI Ha) as HI1.
  destruct (allocate_one_outstanding sizeof_T alignof_T sys_new t st p st1 Hfr HI Ha)
    as [Hown Hnot].
  clear Ha Hfr HI st.
  induction Hrun as [st|st u n q st1 ops rets st2 Hfr Ha Hrun IH
                    |st u q n st1 ops rets st2 Hq Hd Hrun IH|st u st1 ops rets st2 Hc Hrun IH].
  - split; [set_solver|auto].
  - destruct (allocate_keeps_outstanding t u n st p q st1 Hfr HI1 Hown Hnot Ha)
      as (Hqp & Hown1 & Hnot1).
    destruct (IH (fun u' n' H => Hops u' n' (proj2 (elem_of_cons _ _ _) (or_intror H)))
                (allocate_Inv sizeof_T alignof_T sys_new u n st q st1 Hfr HI1 Ha)
                Hown1 Hnot1) as (Hr & Ho2 & Hn2).
    split; [|auto]. apply not_elem_of_cons. split; [congruence|exact Hr].
  - assert (Hqp : q <> p).
    { intros ->. apply (Hops u n). apply elem_of_cons. now left. }
    destruct (deallocate_keeps_outstanding t u q n st p st1 HI1 Hq Hqp Hown Hnot Hd)
      as [Hown1 Hnot1].
    apply IH; [|exact (deallocate_Inv sizeof_T u q n st st1 HI1 Hq Hd)|exact Hown1|exact Hnot1].
    intros u' n' H. exact (Hops u' n' (proj2 (elem_of_cons _ _ _) (or_intror H))).
  - destruct (clear_keeps_outstanding t u st p st1 HI1 Hown Hnot Hc) as [Hown1 Hnot1].
    apply IH; [|exact (proj1 (clear_keeps_Inv u st st1 HI1 Hc))|exact Hown1|exact Hnot1].
    intros u' n' H. exact (Hops u' n' (proj2 (elem_of_cons _ _ _) (or_intror H))).
Qed.

End Outstanding.

Section RoundTrip.
Variables sizeof_T alignof_T : Z.
Variable sys_new : list SysCall -> Z -> option Z.

(** X: hand-off between threads.  In any state satisfying the invariant, a
    cell [p] that thread [a] obtains from [allocate(1)] and that any thread
    [b] (the same or another) frees with [deallocate(p, 1)] goes back into
    [a]'s cache, is returned by [a]'s next [allocate(1)], and leaves [b]'s
    cache untouched when [b] is not [a]. *)
Theorem handoff_round_trip (a b : tid) (st : State) (p : Z) (st1 : State) :
  sys_nonnull sys_new -> Inv st ->
  allocate sizeof_T alignof_T sys_new a 1 st = Ret (p, st1) ->
  exists st2 st3, deallocate sizeof_T b p 1 st1 = Ret st2 /\
    (b <> a -> head st2 b = head st1 b) /\
    allocate sizeof_T alignof_T sys_new a 1 st2 = Ret (p, st3).
Proof.
  intros Hnn HI Ha.
  assert (Hcell : p <> 0 /\ exists c, heap st1 !! p = Some c /\ pool c = a).
  { pose proof (Inv_head_owned st a HI) as Hown.
    unfold allocate in Ha. simpl in Ha.
    destruct (Z.eqb_spec (head st a) 0) as [H0|H0]; simpl in Ha.
    - unfold operator_new in Ha.
      destruct (sys_new (log st) _) as [x|] eqn:Hs; [|discriminate].
      injection Ha as <- <-. split; [eapply Hnn; eauto|].
      exists (mkNode 0 a). split; [apply lookup_insert_eq|reflexivity].
    - destruct (heap st !! head st a) as [c|] eqn:Hc; [|discriminate].
      injection Ha as <- <-. split; [exact H0|].
      destruct (Hown H0) as (c' & Hc' & Ho). exists c'. split; [exact Hc'|exact Ho]. }
  destruct Hcell as (Hp & c & Hc & Ho).
  unfold deallocate. destruct (Z.eqb_spec p 0); [contradiction|]. simpl.
  rewrite Hc. eexists. eexists. split; [reflexivity|]. split.
  - intros Hba. rewrite head_set_head_ne by congruence. reflexivity.
  - unfold allocate. simpl. rewrite Ho, head_set_head_eq.
    destruct (Z.eqb_spec p 0); [contradiction|]. simpl.
    rewrite lookup_insert_eq. reflexivity.
Qed.

End RoundTrip.

(** Invariant of the concrete states. *)
Lemma Inv_st_one_cell : Inv st_one_cell.
Proof. intros u. exists []. split; constructor. Qed.

Lemma Inv_st_two_free : Inv st_two_free.
Proof.
  intros u. destruct (decide (u = 0%nat)) as [->|Hu].
  - exists [16; 32]. split.
    + econstructor; [lia|reflexivity|]. econstructor; [lia|reflexivity|constructor].
    + repeat constructor; eexists; split; reflexivity.
  - exists []. split; [|constructor].
    unfold free_list, head. simpl. rewrite lookup_insert_ne by congruence. constructor.
Qed.

Lemma sys_fresh_two_free : sys_fresh bump_new st_two_free.
Proof. intros b a H. unfold bump_new in H. injection H as <-. reflexivity. Qed.

(** State after thread 1, whose cache is empty, allocates one [int] cell
    while thread 0's cache holds [16 -> 32]. *)
Definition st_two_t1 : State :=
  match int_allocate 1%nat 1 st_two_free with Ret (_, s) => s | _ => st_two_free end.

Lemma in_no_free_list_heads_zero st q : (forall u, head st u = 0) -> in_no_free_list st q.
Proof.
  intros H u l Hl. unfold free_list in Hl. rewrite H in Hl.
  inversion Hl as [|p c l' Hp]; [set_solver|contradiction].
Qed.

(** A hit on thread 0 (pops [16]) and a miss on thread 1 (new cell
    [4096]), both from the state where thread 0's cache holds two cells. *)
Lemma allocate_preserves_Inv_witness :
  sys_fresh bump_new st_two_free /\ Inv st_two_free /\
  int_allocate 0%nat 1 st_two_free = Ret (16, set_head st_two_free 0%nat 32) /\
  Inv (set_head st_two_free 0%nat 32) /\
  int_allocate 1%nat 1 st_two_free = Ret (4096, st_two_t1) /\ Inv st_two_t1.
Proof.
  assert (Ha : int_allocate 0%nat 1 st_two_free = Ret (16, set_head st_two_free 0%nat 32))
    by reflexivity.
  assert (Hb : int_allocate 1%nat 1 st_two_free = Ret (4096, st_two_t1)) by reflexivity.
  split; [exact sys_fresh_two_free|]. split; [exact Inv_st_two_free|].
  split; [exact Ha|]. split.
  - exact (allocate_preserves_Inv 4 4 bump_new 0%nat 1 st_two_free 16
             (set_head st_two_free 0%nat 32) sys_fresh_two_free Inv_st_two_free Ha).
  - split; [exact Hb|].
    exact (allocate_preserves_Inv 4 4 bump_new 1%nat 1 st_two_free 4096 st_two_t1
             sys_fresh_two_free Inv_st_two_free Hb).
Defined.

(** The client run after thread 0 took [16] from its two-cell cache. *)
Definition outstanding_ops : list Op :=
  [OpAllocate 0%nat 1; OpAllocate 1%nat 1; OpDeallocate 1%nat 32 1;
   OpAllocate 0%nat 2; OpAllocate 0%nat 1; OpDeallocate 0%nat 4096 1; OpClear 1%nat].

Ltac fresh_bump := intros ? ? Hs; unfold bump_new in Hs; injection Hs as <-; reflexivity.

Lemma allocate_one_result_outstanding_witness :
  exists rets st2,
    int_allocate 0%nat 1 st_two_free = Ret (16, set_head st_two_free 0%nat 32) /\
    good_run 4 4 bump_new (set_head st_two_free 0%nat 32) outstanding_ops rets st2 /\
    rets = [32; 4096; 4160; 32] /\
    (16 ∉ rets) /\ owned_by st2 0%nat 16 /\ in_no_free_list st2 16.
Proof.
  assert (Ha : int_allocate 0%nat 1 st_two_free = Ret (16, set_head st_two_free 0%nat 32))
    by reflexivity.
  assert (Hrun : exists rets st2,
             good_run 4 4 bump_new (set_head st_two_free 0%nat 32) outstanding_ops rets st2 /\
             rets = [32; 4096; 4160; 32]).
  { do 2 eexists. split; [|reflexivity]. unfold outstanding_ops.
    eapply good_run_allocate; [fresh_bump|reflexivity|].
    eapply good_run_allocate; [fresh_bump|reflexivity|].
    eapply good_run_deallocate; [|reflexivity|].
    { apply in_no_free_list_heads_zero. intros u. unfold head. simpl.
      destruct (decide (u = 0%nat)) as [->|Hu]; [reflexivity|].
      rewrite !lookup_insert_ne by congruence. reflexivity. }
    eapply good_run_allocate; [fresh_bump|reflexivity|].
    eapply good_run_allocate; [fresh_bump|reflexivity|].
    eapply good_run_deallocate; [|reflexivity|].
    { apply in_no_free_list_heads_zero. intros u. unfold head. simpl.
      destruct (decide (u = 0%nat)) as [->|Hu]; [reflexivity|].
      rewrite !lookup_insert_ne by congruence. reflexivity. }
    eapply good_run_clear; [reflexivity|].
    apply good_run_nil. }
  destruct Hrun as (rets & st2 & Hrun & Hrets).
  destruct (allocate_one_result_outstanding 4 4 bump_new 0%nat st_two_free 16
              (set_head st_two_free 0%nat 32) outstanding_ops rets st2
              sys_fresh_two_free Inv_st_two_free Ha Hrun) as (Hr & Ho & Hn).
  { intros u n Hin. unfold outstanding_ops in Hin. set_solver. }
  exists rets, st2. split; [exact Ha|]. split; [exact Hrun|]. split; [exact Hrets|].
  split; [exact Hr|]. split; [exact Ho|exact Hn].
Defined.

Lemma deallocate_preserves_Inv_witness :
  exists st1, int_deallocate 1%nat 4096 1 st_one_cell = Ret st1 /\ Inv st1.
Proof.
  assert (Hnot : in_no_free_list st_one_cell 4096).
  { intros u l Hl. unfold free_list in Hl.
    assert (H0 : head st_one_cell u = 0) by reflexivity. rewrite H0 in Hl.
    inversion Hl as [|p c l' Hp]; [set_solver|contradiction]. }
  eexists. split; [reflexivity|].
  exact (deallocate_preserves_Inv 4 1%nat 4096 1 st_one_cell _ Inv_st_one_cell Hnot eq_refl).
Defined.

Lemma clear_teardown_preserve_Inv_witness :
  (exists st1, clear 0%nat st_two_free = Ret st1 /\ Inv st1) /\
  (exists st2, teardown 0%nat st_two_free = Ret st2 /\ Inv st2).
Proof.
  destruct (clear_teardown_preserve_Inv 0%nat st_two_free Inv_st_two_free) as [Hc Ht].
  split; eexists; split; [reflexivity|apply Hc; reflexivity|reflexivity|apply Ht; reflexivity].
Defined.

Lemma handoff_round_trip_witness :
  exists st2 st3, int_deallocate 1%nat 16 1 (set_head st_two_free 0%nat 32) = Ret st2 /\
    (1%nat <> 0%nat -> head st2 1%nat = head (set_head st_two_free 0%nat 32) 1%nat) /\
    int_allocate 0%nat 1 st2 = Ret (16, st3).
Proof.
  exact (handoff_round_trip 4 4 bump_new 0%nat 1%nat st_two_free 16
           (set_head st_two_free 0%nat 32) bump_new_nonnull Inv_st_two_free eq_refl).
Defined.

(** ** src/AlignedAllocator.h

    [AlignedAllocator<T, N>] forwards to the aligned forms of
    [::operator new] and [::operator delete]; it keeps no state. *)
Module Aligned.

(** Calls to [::operator new(bytes, align_val_t)] and
    [::operator delete(p, bytes, align_val_t)]. *)
Inductive ACall :=
| ANew (bytes align addr : Z)
| ADelete (addr bytes align : Z).

Section AlignedAllocator.
Variables sizeof_T N : Z.
(** The aligned [::operator new]: address for [bytes] at alignment
    [align] given the call history; [None] is [std::bad_alloc]. *)
Variable sys_new_aligned : list ACall -> Z -> Z -> option Z.

(** [AlignedAllocator<T, N>::allocate(n)] *)
Definition allocate (n : Z) (l : list ACall) : Res (Z * list ACall) :=
  match sys_new_aligned l (size_mul n sizeof_T) N with
  | Some a => Ret (a, l ++ [ANew (size_mul n sizeof_T) N a])
  | None => BadAlloc
  end.

(** [AlignedAllocator<T, N>::deallocate(p, n)] *)
Definition deallocate (p n : Z) (l : list ACall) : list ACall :=
  l ++ [ADelete p (size_mul n sizeof_T) N].

(** X: a block obtained from [allocate(n)] and released with
    [deallocate(p, n)] is released with exactly the byte count and the
    alignment it was requested with. *)
Theorem allocate_deallocate_match (n : Z) (l : list ACall) (p : Z) (l1 : list ACall) :
  allocate n l = Ret (p, l1) ->
  exists bytes align,
    l1 = l ++ [ANew bytes align p] /\
    deallocate p n l1 = l ++ [ANew bytes align p; ADelete p bytes align] /\
    bytes = size_mul n sizeof_T /\ align = N.
Proof.
  unfold allocate. destruct (sys_new_aligned l _ N) as [a|]; [|discriminate].
  intros H. injection H as <- <-. exists (size_mul n sizeof_T), N.
  split; [reflexivity|]. split; [|split; reflexivity].
  unfold deallocate. now rewrite <- app_assoc.
Qed.

End AlignedAllocator.

(** A bump allocator honouring the alignment. *)
Definition aligned_bump (l : list ACall) (bytes align : Z) : option Z :=
  Some (round_up (4096 + 256 * Z.of_nat (length l)) align).

Lemma allocate_deallocate_match_witness :
  exists bytes align,
    [ANew 24 64 4096] = [] ++ [ANew bytes align 4096] /\
    deallocate 4 64 4096 6 [ANew 24 64 4096] = [] ++ [ANew bytes align 4096; ADelete 4096 bytes align] /\
    bytes = size_mul 6 4 /\ align = 64.
Proof.
  exact (allocate_deallocate_match 4 64 aligned_bump 6 [] 4096 [ANew 24 64 4096] eq_refl).
Defined.

End Aligned.

(** ** src/unnamed/part_000: the shared-pool version of PoolAllocator

    This version of the header keeps one process-wide [SharedPool] per
    element type and a [thread_local LocalPool] per thread; a [Node] is only
    [union { Node* next; T value; }], with no back-reference.  Memory holds
    the [next] field of the cells that were written through it; reading an
    address it does not hold is undefined behaviour.  The operations run
    without interference from other threads.  The retrying
    [SharedPool::compare_exchange] loop succeeds once its expected value
    matches; a single [compare_exchange_weak] (in [try_compare_exchange]
    and in the [~SharedPool] loop) may also fail spuriously, and whether it
    does is an explicit input. *)
Module SharedVersion.

Record SState := mkSState {
  smem : gmap Z Z;       (* [next] field of the cells, by address *)
  shared : Z;            (* [shared_pool.head] *)
  locals : gmap tid Z;   (* [local_pool.head] of each thread *)
  slog : list SysCall    (* calls to the system allocator *)
}.


(** [local_pool] of a thread: constructed with [head = nullptr]. *)
Definition local (st : SState) (t : tid) : Z := default 0 (locals st !! t).

Definition set_local (st : SState) (t : tid) (p : Z) : SState :=
  mkSState (smem st) (shared st) (<[t := p]> (locals st)) (slog st).

Definition set_shared (st : SState) (p : Z) : SState :=
  mkSState (smem st) p (locals st) (slog st).

Definition write_next (st : SState) (p v : Z) : SState :=
  mkSState (<[p := v]> (smem st)) (shared st) (locals st) (slog st).

Definition semit (st : SState) (e : SysCall) : SState :=
  mkSState (smem st) (shared st) (locals st) (slog st ++ [e]).

Section Operations.
Variables sizeof_T alignof_T : Z.
Variable sys_new : list SysCall -> Z -> option Z.

(** [sizeof(Node)] for [union Node { Node* next; T value; }]. *)
Definition sizeof_SNode : Z := union_size sizeof_T alignof_T.

(** [alloc(n)]: [::operator new(n * sizeof(Node))]. *)
Definition alloc (n : Z) (st : SState) : Res (Z * SState) :=
  match sys_new (slog st) (size_mul n sizeof_SNode) with
  | Some a => Ret (a, semit st (SysNew (size_mul n sizeof_SNode) a))
  | None => BadAlloc
  end.

(** [dealloc(p, n)]: [::operator delete(p, n * sizeof(Node))]. *)
Definition dealloc (p n : Z) (st : SState) : SState :=
  semit st (SysDelete p (Some (size_mul n sizeof_SNode))).

(** [add_to_shared_pool(p)]: [node->next = shared_pool.load();
    shared_pool.compare_exchange(node->next, node)]. *)
Definition add_to_shared_pool (p : Z) (st : SState) : Res SState :=
  if p =? 0 then Undef                     (* writes through nullptr *)
  else Ret (set_shared (write_next st p (shared st)) p).

(** [move_from_shared_to_local_pool()]: take the whole shared list when the
    local one is empty ([compare_exchange(local_pool, nullptr)]). *)
Definition move_from_shared_to_local_pool (t : tid) (st : SState) : SState :=
  if local st t =? 0 then set_local (set_shared st 0) t (shared st) else st.

(** [reuse_from_local_pool()]: pop the local list; [nullptr] when empty. *)
Definition reuse_from_local_pool (t : tid) (st : SState) : Res (Z * SState) :=
  let p := local st t in
  if p =? 0 then Ret (0, st)
  else match smem st !! p with
       | Some nx => Ret (p, set_local st t nx)
       | None => Undef
       end.

(** [move_from_local_to_shared_pool()]: hand the local list back when the
    shared one is empty ([try_compare_exchange(nullptr, local_pool)], one
    [compare_exchange_weak]).  [spurious] says whether that exchange fails
    spuriously; the list then stays local. *)
Definition move_from_local_to_shared_pool (spurious : bool) (t : tid) (st : SState) : SState :=
  if (shared st =? 0) && negb spurious then set_local (set_shared st (local st t)) t 0
  else st.

(** [PoolAllocator<T>::allocate(n)] on thread [t]; [spurious] is the
    outcome of the weak exchange in [move_from_local_to_shared_pool]. *)
Definition allocate (spurious : bool) (t : tid) (n : Z) (st : SState) : Res (Z * SState) :=
  if n =? 1 then
    let st1 := move_from_shared_to_local_pool t st in
    match reuse_from_local_pool t st1 with
    | Ret (p, st2) =>
        let st3 := move_from_local_to_shared_pool spurious t st2 in
        if p =? 0 then alloc n st3 else Ret (p, st3)
    | BadAlloc => BadAlloc
    | Undef => Undef
    end
  else alloc n st.

(** [PoolAllocator<T>::deallocate(p, n)] on thread [t] ([t] is not read). *)
Definition deallocate (t : tid) (p n : Z) (st : SState) : Res SState :=
  if n =? 1 then add_to_shared_pool p st else Ret (dealloc p n st).

End Operations.

(** The loop of [~LocalPool()] when the shared pool is not empty: push the
    local cells one by one onto it. *)
Fixpoint local_push_loop (fuel : nat) (t : tid) (st : SState) : Res SState :=
  match fuel with
  | O => Undef
  | S fuel' =>
      let p := local st t in                     (* Node* p = head *)
      if p =? 0 then Ret st
      else match smem st !! p with
           | Some nx =>
               let st1 := set_local st t nx in   (* head = p->next *)
               (* p->next = shared.load(); shared.compare_exchange(p->next, p) *)
               local_push_loop fuel' t (set_shared (write_next st1 p (shared st1)) p)
           | None => Undef
           end
  end.

(** [~LocalPool()] at the exit of thread [t]; the local pool is gone
    afterwards.  [spurious] says whether [try_compare_exchange(nullptr,
    head)] fails spuriously; the loop then runs even though the shared pool
    is empty. *)
Definition local_pool_dtor (spurious : bool) (t : tid) (st : SState) : Res SState :=
  let drop st' := mkSState (smem st') (shared st') (delete t (locals st')) (slog st') in
  if (shared st =? 0) && negb spurious then Ret (drop (set_shared st (local st t)))
  else match local_push_loop (S (size (smem st))) t st with
       | Ret st' => Ret (drop st')
       | BadAlloc => BadAlloc
       | Undef => Undef
       end.

(** The loop of [~SharedPool()]:
    [while (p != nullptr) { head.compare_exchange_weak(p, p->next);
       ::operator delete(p); p = head.load(); }].
    [spurious] says, for each iteration, whether the
    [compare_exchange_weak] fails spuriously (it may, even without
    contention); after the list is exhausted none does. *)
Fixpoint shared_dtor_loop (fuel : nat) (spurious : list bool) (st : SState) : Res SState :=
  match fuel with
  | O => Undef
  | S fuel' =>
      let p := shared st in
      if p =? 0 then Ret st
      else match smem st !! p with
           | Some nx =>
               let '(fail, rest) :=
                 match spurious with b :: r => (b, r) | [] => (false, []) end in
               let st1 := if fail then st else set_shared st nx in
               let st2 := mkSState (delete p (smem st1)) (shared st1) (locals st1)
                            (slog st1 ++ [SysDelete p None]) in
               shared_dtor_loop fuel' rest st2
           | None => Undef                          (* p->next of a freed cell *)
           end
  end.

(** [~SharedPool()] at program exit. *)
Definition shared_pool_dtor (spurious : list bool) (st : SState) : Res SState :=
  shared_dtor_loop (S (size (smem st) + length spurious)) spurious st.

(** [mchain m p l]: following [next] fields from [p] visits the cells [l]
    and ends at [nullptr]. *)
Inductive mchain (m : gmap Z Z) : Z -> list Z -> Prop :=
| mchain_nil : mchain m 0 []
| mchain_cons p nx l : p <> 0 -> m !! p = Some nx -> mchain m nx l -> mchain m p (p :: l).

Lemma mchain_det m p l1 l2 : mchain m p l1 -> mchain m p l2 -> l1 = l2.
Proof.
  intros H1. revert l2. induction H1 as [|p nx l Hp Hn Hl IH]; intros l2 H2.
  - inversion H2; [reflexivity|contradiction].
  - inversion H2 as [|p' nx' l' Hp' Hn' Hl']; subst; [contradiction|].
    rewrite Hn in Hn'. injection Hn' as <-. f_equal. now apply IH.
Qed.

Lemma mchain_nodup m p l : mchain m p l -> NoDup l.
Proof.
  induction 1 as [|p nx l Hp Hn Hl IH]; [constructor|].
  constructor; [|exact IH]. intros Hin.
  assert (Hsuf : forall q k x, mchain m q k -> x ∈ k ->
            exists k', mchain m x k' /\ (length k' <= length k)%nat).
  { intros q k x Hk. induction Hk as [|q nq k Hq Hnq Hk IHk]; intros Hx.
    - exfalso. by apply not_elem_of_nil in Hx.
    - apply elem_of_cons in Hx as [->|Hx].
      + exists (q :: k). split; [econstructor; eauto|lia].
      + destruct (IHk Hx) as (k' & Hk' & Hlen). exists k'. simpl. split; [exact Hk'|lia]. }
  destruct (Hsuf _ _ _ Hl Hin) as (l' & Hl' & Hlen).
  assert (l' = p :: l) as -> by (eapply mchain_det; [exact Hl'|econstructor; eauto]).
  simpl in Hlen. lia.
Qed.

Lemma mchain_in m p l y : mchain m p l -> y ∈ l -> is_Some (m !! y).
Proof.
  induction 1 as [|p nx l Hp Hn Hl IH]; intros Hy; [set_solver|].
  apply elem_of_cons in Hy as [->|Hy]; [eauto|auto].
Qed.

Lemma mchain_ext m m' p l :
  mchain m p l -> (forall y, y ∈ l -> m' !! y = m !! y) -> mchain m' p l.
Proof.
  induction 1 as [|p nx l Hp Hn Hl IH]; intros Hext; [constructor|].
  econstructor; [exact Hp| |apply IH; intros y Hy; apply Hext; set_solver].
  rewrite Hext by set_solver. exact Hn.
Qed.

Lemma mchain_length_size l : forall m p, mchain m p l -> (length l <= size m)%nat.
Proof.
  induction l as [|q l IH]; intros m p Hl; simpl; [lia|].
  inversion Hl as [|p' nx l' Hp Hn Hl']; subst.
  pose proof (mchain_nodup _ _ _ Hl) as Hnd. apply NoDup_cons in Hnd as [Hq _].
  assert (Hl2 : mchain (delete q m) nx l).
  { apply (mchain_ext m); [exact Hl'|]. intros y Hy.
    apply lookup_delete_ne. intros ->. contradiction. }
  pose proof (IH _ _ Hl2) as Hle.
  rewrite map_size_delete_Some in Hle by eauto.
  pose proof (map_size_ne_0_lookup_2 m q ltac:(eauto)). lia.
Qed.

Lemma local_set_local_eq st t p : local (set_local st t p) t = p.
Proof. unfold local, set_local; simpl. by rewrite lookup_insert_eq. Qed.

Lemma local_set_local_ne st t u p : u <> t -> local (set_local st t p) u = local st u.
Proof. intros H. unfold local, set_local; simpl. by rewrite lookup_insert_ne. Qed.

Lemma mchain_inv m p l :
  mchain m p l ->
  (p = 0 /\ l = []) \/
  (exists nx l', p <> 0 /\ m !! p = Some nx /\ mchain m nx l' /\ l = p :: l').
Proof. intros [|q nx l' Hq Hn Hl]; [left; auto|right; eauto 10]. Qed.

Lemma local_semit st e u : local (semit st e) u = local st u.
Proof. reflexivity. Qed.

(** Sequentially, every thread's local pool is empty between calls. *)
Definition locals_empty (st : SState) : Prop := forall u, local st u = 0.

Section Properties.
Variables sizeof_T alignof_T : Z.
Variable sys_new : list SysCall -> Z -> option Z.

Ltac local_other :=
  intros ? ?; unfold local; simpl; rewrite ?lookup_insert_ne by congruence; reflexivity.

(** X (part_000): with its local pool empty, [allocate(1)] on any thread
    takes the head of the process-wide shared pool.  The rest of the shared
    list goes back to the shared pool, or, when the weak exchange of
    [move_from_local_to_shared_pool] fails spuriously, stays in the
    thread's local pool.  On an empty shared pool it requests one block of
    [1 * sizeof(Node)] bytes and both pools stay empty.  Cells and other
    threads' local pools are untouched. *)
Theorem sallocate_one_pops_shared (spurious : bool) (t : tid) (st : SState) :
  local st t = 0 ->
  (forall nx, shared st <> 0 -> smem st !! shared st = Some nx ->
     exists st', allocate sizeof_T alignof_T sys_new spurious t 1 st = Ret (shared st, st') /\
       smem st' = smem st /\ slog st' = slog st /\
       (forall u, u <> t -> local st' u = local st u) /\
       (if spurious then shared st' = 0 /\ local st' t = nx
        else shared st' = nx /\ local st' t = 0)) /\
  (shared st = 0 ->
     match sys_new (slog st) (size_mul 1 (sizeof_SNode sizeof_T alignof_T)) with
     | Some a =>
         exists st', allocate sizeof_T alignof_T sys_new spurious t 1 st = Ret (a, st') /\
           shared st' = 0 /\ smem st' = smem st /\
           slog st' = slog st ++ [SysNew (size_mul 1 (sizeof_SNode sizeof_T alignof_T)) a] /\
           local st' t = 0 /\ (forall u, u <> t -> local st' u = local st u)
     | None => allocate sizeof_T alignof_T sys_new spurious t 1 st = BadAlloc
     end).
Proof.
  intros Hl. split.
  - intros nx Hs Hn. eexists. split.
    + unfold allocate, move_from_shared_to_local_pool, reuse_from_local_pool,
        move_from_local_to_shared_pool. simpl. rewrite Hl. simpl.
      rewrite local_set_local_eq. destruct (Z.eqb_spec (shared st) 0); [contradiction|].
      simpl. rewrite Hn. simpl. destruct (Z.eqb_spec (shared st) 0); [contradiction|].
      reflexivity.
    + split; [destruct spurious; reflexivity|].
      split; [destruct spurious; reflexivity|].
      split; [destruct spurious; local_other|].
      destruct spurious; simpl.
      * split; [reflexivity|apply local_set_local_eq].
      * split; [now rewrite local_set_local_eq|apply local_set_local_eq].
  - intros Hs. unfold allocate, move_from_shared_to_local_pool, reuse_from_local_pool,
      move_from_local_to_shared_pool. simpl. rewrite Hl. simpl.
    rewrite local_set_local_eq, Hs. simpl. unfold alloc.
    destruct (sys_new (slog _) _) as [a|] eqn:Hsys;
      destruct spurious; simpl in Hsys |- *; rewrite Hsys; try reflexivity;
      (eexists; split; [reflexivity|]); simpl;
      repeat split;
      first [reflexivity | (unfold local; simpl; now rewrite ?lookup_insert_eq) | local_other].
Qed.

(** X (part_000): sequentially, [allocate(1)] on thread [t] neither loses
    nor duplicates a pooled cell, whether or not the weak exchange fails
    spuriously.  If [t]'s local list [lt] and the shared list [ls] were
    both empty, they stay empty and the cell comes from the system
    allocator; otherwise the cell returned followed by the two lists
    afterwards is exactly [lt ++ ls], and the system allocator is not
    called.  Cells and other threads' local pools are untouched. *)
Theorem sallocate_one_conserves_cells (spurious : bool) (t : tid) (st : SState)
    (lt ls : list Z) (p : Z) (st' : SState) :
  mchain (smem st) (local st t) lt -> mchain (smem st) (shared st) ls ->
  allocate sizeof_T alignof_T sys_new spurious t 1 st = Ret (p, st') ->
  smem st' = smem st /\ (forall u, u <> t -> local st' u = local st u) /\
  exists lt' ls', mchain (smem st') (local st' t) lt' /\ mchain (smem st') (shared st') ls' /\
    ((lt ++ ls = [] /\ lt' = [] /\ ls' = [] /\ exists b, slog st' = slog st ++ [SysNew b p]) \/
     (lt ++ ls = p :: lt' ++ ls' /\ slog st' = slog st)).
Proof.
  intros Ht Hs Ha.
  unfold allocate, move_from_shared_to_local_pool, reuse_from_local_pool,
    move_from_local_to_shared_pool in Ha. simpl in Ha.
  destruct (mchain_inv _ _ _ Ht) as [[Hl0 ->]|(nx & lt0 & Hh & Hnx & Hlt0 & ->)].
  - (* empty local list: take the shared list *)
    rewrite Hl0 in Ha. simpl in Ha. rewrite local_set_local_eq in Ha.
    destruct (mchain_inv _ _ _ Hs) as [[Hs0 ->]|(nx & ls0 & Hh & Hnx & Hls0 & ->)].
    + (* both empty: a miss *)
      rewrite Hs0 in Ha. simpl in Ha. unfold alloc in Ha.
      destruct spurious; simpl in Ha;
        (destruct (sys_new _ _) as [a|]; [|discriminate]);
        injection Ha as <- <-;
        (split; [reflexivity|]); (split; [local_other|]);
        exists [], []; simpl; rewrite ?local_semit, !local_set_local_eq;
        (split; [constructor|]); (split; [rewrite ?Hs0; constructor|]);
        left; (split; [reflexivity|]); (split; [reflexivity|]); (split; [reflexivity|]); eauto.
    + (* shared list [shared st :: ls0] *)
      destruct (Z.eqb_spec (shared st) 0) as [|_]; [contradiction|]. simpl in Ha.
      rewrite Hnx in Ha. simpl in Ha.
      destruct (Z.eqb_spec (shared st) 0) as [|_]; [contradiction|].
      destruct spurious; simpl in Ha; injection Ha as <- <-;
        (split; [reflexivity|]); (split; [local_other|]).
      * exists ls0, []. simpl. rewrite !local_set_local_eq.
        split; [exact Hls0|]. split; [constructor|]. right.
        split; [now rewrite app_nil_r|reflexivity].
      * exists [], ls0. simpl. rewrite !local_set_local_eq.
        split; [constructor|]. split; [exact Hls0|]. right. split; reflexivity.
  - (* non-empty local list [local st t :: lt0]: pop it *)
    destruct (Z.eqb_spec (local st t) 0) as [|_]; [contradiction|]. simpl in Ha.
    rewrite Hnx in Ha. simpl in Ha.
    destruct (Z.eqb_spec (local st t) 0) as [|_]; [contradiction|]. simpl in Ha.
    destruct (Z.eqb_spec (local st t) 0) as [|_]; [contradiction|].
    destruct (shared st =? 0) eqn:Ez; destruct spurious; simpl in Ha;
      injection Ha as <- <-; (split; [reflexivity|]); (split; [local_other|]).
    + exists lt0, ls. rewrite local_set_local_eq. split; [exact Hlt0|].
      split; [exact Hs|]. right. split; reflexivity.
    + apply Z.eqb_eq in Ez.
      destruct (mchain_inv _ _ _ Hs) as [[_ ->]|(? & ? & Hc & _)]; [|contradiction].
      exists [], lt0. simpl. rewrite !local_set_local_eq.
      split; [constructor|]. split; [exact Hlt0|]. right.
      split; [now rewrite app_nil_r|reflexivity].
    + exists lt0, ls. rewrite local_set_local_eq. split; [exact Hlt0|].
      split; [exact Hs|]. right. split; reflexivity.
    + exists lt0, ls. rewrite local_set_local_eq. split; [exact Hlt0|].
      split; [exact Hs|]. right. split; reflexivity.
Qed.

Lemma sallocate_locals (spurious : bool) (t : tid) (n : Z) (st : SState) (p : Z) (st' : SState) :
  locals_empty st -> allocate sizeof_T alignof_T sys_new spurious t n st = Ret (p, st') ->
  (forall u, u <> t \/ spurious = false -> local st' u = 0) /\
  (n = 1 -> sys_nonnull sys_new -> p <> 0).
Proof.
  intros HL Ha. unfold allocate in Ha. destruct (Z.eqb_spec n 1) as [->|Hn].
  - unfold move_from_shared_to_local_pool, reuse_from_local_pool,
      move_from_local_to_shared_pool in Ha.
    rewrite (HL t) in Ha. simpl in Ha. rewrite local_set_local_eq in Ha.
    destruct (Z.eqb_spec (shared st) 0) as [Hs|Hs]; simpl in Ha.
    + unfold alloc in Ha.
      destruct spurious; simpl in Ha;
        (destruct (sys_new _ _) as [a|] eqn:Hsys; [|discriminate]);
        injection Ha as <- <-;
        (split; [|intros _ Hnn; eapply Hnn; eauto]);
        intros u _; unfold local; simpl;
        (destruct (decide (u = t)) as [->|Hut];
         [rewrite lookup_insert_eq; simpl; try rewrite lookup_insert_eq; simpl; try exact Hs;
          reflexivity
         |rewrite ?lookup_insert_ne by congruence; exact (HL u)]).
    + destruct (smem st !! shared st) as [nx|]; [|discriminate]. simpl in Ha.
      destruct (Z.eqb_spec (shared st) 0); [contradiction|].
      destruct spurious; simpl in Ha; injection Ha as <- <-;
        (split; [|intros; exact Hs]); intros u Hu; unfold local; simpl.
      * destruct Hu as [Hut|]; [|discriminate].
        rewrite !lookup_insert_ne by congruence. exact (HL u).
      * destruct (decide (u = t)) as [->|Hut]; [now rewrite lookup_insert_eq|].
        rewrite !lookup_insert_ne by congruence. exact (HL u).
  - unfold alloc in Ha. destruct (sys_new _ _) as [a|]; [|discriminate].
    injection Ha as <- <-. split; [intros u _; exact (HL u)|]. intros; contradiction.
Qed.

(** X (part_000): [deallocate(p, 1)] for non-null [p], on any thread,
    pushes [p] onto the one process-wide shared pool: its head becomes [p]
    and [p]'s [next] the old head; local pools, other cells and the system
    allocator are untouched. *)
Theorem sdeallocate_one_pushes_shared (t : tid) (p : Z) (st : SState) :
  p <> 0 ->
  exists st', deallocate sizeof_T alignof_T t p 1 st = Ret st' /\
    shared st' = p /\ smem st' !! p = Some (shared st) /\
    (forall q, q <> p -> smem st' !! q = smem st !! q) /\
    locals st' = locals st /\ slog st' = slog st.
Proof.
  intros Hp. eexists. split.
  - unfold deallocate, add_to_shared_pool. simpl.
    destruct (Z.eqb_spec p 0); [contradiction|]. reflexivity.
  - simpl. split; [reflexivity|]. split; [apply lookup_insert_eq|].
    split; [intros q Hq; now apply lookup_insert_ne|]. split; reflexivity.
Qed.

(** X (part_000): this version has no null or zero-count guard:
    [deallocate(nullptr, 1)] writes through [nullptr] (undefined
    behaviour), and [deallocate(p, 0)] calls [::operator delete(p, 0)]. *)
Theorem sdeallocate_no_guard (t : tid) (p : Z) (st : SState) :
  deallocate sizeof_T alignof_T t 0 1 st = Undef /\
  deallocate sizeof_T alignof_T t p 0 st = Ret (semit st (SysDelete p (Some 0))).
Proof. split; reflexivity. Qed.

(** X (part_000): a cell allocated by thread [a] and freed by any thread
    [b] is the next cell [allocate(1)] returns on a thread [c] whose local
    pool is empty: any thread other than [a], or [a] itself when its
    allocation met no spurious failure (otherwise [a]'s local pool keeps
    the rest of the shared list and [a] is served from it first). *)
Theorem shared_round_trip_any_thread (a b c : tid) (spurious1 spurious3 : bool)
    (st : SState) (p : Z) (st1 : SState) :
  sys_nonnull sys_new -> locals_empty st -> c <> a \/ spurious1 = false ->
  allocate sizeof_T alignof_T sys_new spurious1 a 1 st = Ret (p, st1) ->
  exists st2 st3, deallocate sizeof_T alignof_T b p 1 st1 = Ret st2 /\
    allocate sizeof_T alignof_T sys_new spurious3 c 1 st2 = Ret (p, st3).
Proof.
  intros Hnn HL Hc Ha.
  destruct (sallocate_locals spurious1 a 1 st p st1 HL Ha) as [HL1 Hp].
  specialize (Hp eq_refl Hnn).
  eexists. eexists. split.
  - unfold deallocate, add_to_shared_pool. simpl.
    destruct (Z.eqb_spec p 0); [contradiction|]. reflexivity.
  - unfold allocate, move_from_shared_to_local_pool, reuse_from_local_pool. simpl.
    assert (Hc0 : local (set_shared (write_next st1 p (shared st1)) p) c = 0)
      by (apply HL1; destruct Hc; [left; congruence|right; assumption]).
    rewrite Hc0. simpl. rewrite local_set_local_eq. simpl.
    destruct (Z.eqb_spec p 0); [contradiction|]. simpl.
    rewrite lookup_insert_eq. simpl.
    destruct (Z.eqb_spec p 0); [contradiction|]. reflexivity.
Qed.

(** X (part_000): on the bulk path ([n <> 1]) the block is requested and
    released with the same byte count, the [size_t] product
    [n * sizeof(Node)]. *)
Theorem sbulk_sizes_match (spurious : bool) (t t' : tid) (n : Z) (st : SState) (p : Z)
    (st1 st2 : SState) :
  n <> 1 ->
  allocate sizeof_T alignof_T sys_new spurious t n st = Ret (p, st1) ->
  deallocate sizeof_T alignof_T t' p n st1 = Ret st2 ->
  slog st1 = slog st ++ [SysNew (size_mul n (sizeof_SNode sizeof_T alignof_T)) p] /\
  slog st2 = slog st1 ++ [SysDelete p (Some (size_mul n (sizeof_SNode sizeof_T alignof_T)))].
Proof.
  intros Hn Ha Hd. unfold allocate in Ha. destruct (Z.eqb_spec n 1); [contradiction|].
  unfold alloc in Ha. destruct (sys_new _ _) as [a|]; [|discriminate].
  injection Ha as <- <-.
  unfold deallocate in Hd. destruct (Z.eqb_spec n 1); [contradiction|].
  injection Hd as <-. split; reflexivity.
Qed.

End Properties.

Lemma local_push_loop_chain (t : tid) (l1 : list Z) :
  forall (fuel : nat) (st : SState) (l2 : list Z),
  mchain (smem st) (local st t) l1 -> mchain (smem st) (shared st) l2 ->
  (forall x, x ∈ l1 -> x ∉ l2) -> (length l1 < fuel)%nat ->
  exists st', local_push_loop fuel t st = Ret st' /\
    mchain (smem st') (shared st') (rev l1 ++ l2) /\
    local st' t = 0 /\ (forall u, u <> t -> local st' u = local st u) /\
    slog st' = slog st.
Proof.
  induction l1 as [|p l1 IH]; intros fuel st l2 H1 H2 Hdis Hf;
    (destruct fuel as [|fuel]; [simpl in Hf; lia|]).
  - inversion H1 as [H0|]. exists st. simpl. rewrite <- H0. simpl.
    split; [reflexivity|]. split; [exact H2|]. split; [reflexivity|]. auto.
  - pose proof (mchain_nodup _ _ _ H1) as Hnd. apply NoDup_cons in Hnd as [Hpl _].
    inversion H1 as [|p' nx l' Hp Hn Hl']; subst p' l'.
    match goal with E : local st t = p |- _ => rename E into Eq end.
    simpl. rewrite Eq in *. destruct (Z.eqb_spec p 0); [contradiction|]. rewrite Hn.
    set (st2 := set_shared (write_next (set_local st t nx) p (shared st)) p).
    assert (Hmem : forall y, y <> p -> smem st2 !! y = smem st !! y)
      by (intros y Hy; simpl; now apply lookup_insert_ne).
    destruct (IH fuel st2 (p :: l2)) as (st' & Hrun & Hch & Ht & Hu & Hlog).
    + assert (Hl2 : local st2 t = nx) by (unfold st2, local; simpl; now rewrite lookup_insert_eq).
      rewrite Hl2. apply (mchain_ext (smem st)); [exact Hl'|].
      intros y Hy. apply Hmem. intros ->. contradiction.
    + simpl. econstructor; [exact Hp|apply lookup_insert_eq|].
      apply (mchain_ext (smem st)); [exact H2|]. intros y Hy. apply lookup_insert_ne.
      intros Hyp. subst y. apply (Hdis p); [set_solver|exact Hy].
    + intros x Hx Hx'. apply elem_of_cons in Hx' as [Hxp|Hx2]; [subst x; contradiction|].
      apply (Hdis x); [set_solver|exact Hx2].
    + simpl in Hf. lia.
    + exists st'. split; [exact Hrun|]. split.
      * simpl. rewrite <- app_assoc. exact Hch.
      * split; [exact Ht|]. split; [|exact Hlog].
        intros u Hut. rewrite Hu by exact Hut. apply local_set_local_ne. exact Hut.
Qed.

(** X (part_000): at thread exit, [~LocalPool()] hands every cell of the
    thread's local list back to the shared pool (all at once when the
    shared pool is empty and the weak exchange does not fail spuriously,
    one by one otherwise): the shared list afterwards holds exactly the
    cells of both lists, the local pool is gone, and no cell is released to
    the system allocator, whatever the outcome [spurious] of the exchange. *)
Theorem local_pool_dtor_returns_cells (spurious : bool) (t : tid) (st : SState) (l1 l2 : list Z) :
  mchain (smem st) (local st t) l1 -> mchain (smem st) (shared st) l2 ->
  (forall x, x ∈ l1 -> x ∉ l2) ->
  exists st' l, local_pool_dtor spurious t st = Ret st' /\
    mchain (smem st') (shared st') l /\ l ≡ₚ l1 ++ l2 /\
    locals st' !! t = None /\ slog st' = slog st.
Proof.
  intros H1 H2 Hdis. unfold local_pool_dtor.
  destruct ((shared st =? 0) && negb spurious) eqn:E.
  - apply andb_true_iff in E as [Hs _]. apply Z.eqb_eq in Hs. rewrite Hs in H2. inversion H2 as [|p nx l Hp]; [|contradiction]. subst l2.
    eexists. exists l1. split; [reflexivity|]. simpl.
    split; [exact H1|]. split; [now rewrite app_nil_r|].
    split; [apply lookup_delete_eq|reflexivity].
  - pose proof (mchain_length_size _ _ _ H1) as Hsz.
    destruct (local_push_loop_chain t l1 (S (size (smem st))) st l2 H1 H2 Hdis ltac:(lia))
      as (st' & Hrun & Hch & _ & _ & Hlog).
    rewrite Hrun. eexists. exists (rev l1 ++ l2). split; [reflexivity|]. simpl.
    split; [exact Hch|]. split; [apply Permutation_app_tail; symmetry; apply Permutation_rev|].
    split; [apply lookup_delete_eq|exact Hlog].
Qed.

Lemma shared_dtor_loop_chain (l : list Z) :
  forall (fuel : nat) (st : SState), mchain (smem st) (shared st) l ->
  (length l < fuel)%nat ->
  exists st', shared_dtor_loop fuel [] st = Ret st' /\ shared st' = 0 /\
    slog st' = slog st ++ map (fun q => SysDelete q None) l /\
    locals st' = locals st.
Proof.
  induction l as [|p l IH]; intros fuel st Hl Hf;
    (destruct fuel as [|fuel]; [simpl in Hf; lia|]).
  - inversion Hl as [H0|]. exists st. simpl. rewrite <- H0. simpl.
    split; [reflexivity|]. split; [reflexivity|].
    split; [now rewrite app_nil_r|reflexivity].
  - pose proof (mchain_nodup _ _ _ Hl) as Hnd. apply NoDup_cons in Hnd as [Hpl _].
    inversion Hl as [|p' nx l' Hp Hn Hl']; subst p' l'.
    match goal with E : shared st = p |- _ => rename E into Eq end.
    simpl. rewrite Eq in *. destruct (Z.eqb_spec p 0); [contradiction|]. rewrite Hn.
    destruct (IH fuel (mkSState (delete p (smem st)) nx (locals st)
                        (slog st ++ [SysDelete p None]))) as (st' & Hrun & Hs & Hlog & Hloc).
    + simpl. apply (mchain_ext (smem st)); [exact Hl'|].
      intros y Hy. apply lookup_delete_ne. intros ->. contradiction.
    + simpl in Hf. lia.
    + exists st'. split; [exact Hrun|]. split; [exact Hs|].
      split; [rewrite Hlog; simpl; now rewrite <- app_assoc|exact Hloc].
Qed.

(** X (part_000): when no [compare_exchange_weak] fails spuriously,
    [~SharedPool()] releases to the system allocator exactly the cells of
    the shared list, each once and in list order, and leaves it empty. *)
Theorem shared_pool_dtor_releases (st : SState) (l : list Z) :
  mchain (smem st) (shared st) l ->
  exists st', shared_pool_dtor [] st = Ret st' /\ shared st' = 0 /\
    slog st' = slog st ++ map (fun q => SysDelete q None) l.
Proof.
  intros Hl. pose proof (mchain_length_size _ _ _ Hl) as Hsz.
  destruct (shared_dtor_loop_chain l (S (size (smem st) + 0)) st Hl ltac:(lia))
    as (st' & Hrun & Hs & Hlog & _).
  exists st'. split; [exact Hrun|]. split; [exact Hs|exact Hlog].
Qed.

(** X (part_000): if the first [compare_exchange_weak] of [~SharedPool()]
    fails spuriously, the head cell is deleted while still in the list and
    the next iteration reads its [next] field after the delete: undefined
    behaviour, whatever happens afterwards. *)
Theorem shared_pool_dtor_spurious_use_after_free (st : SState) (nx : Z) (rest : list bool) :
  shared st <> 0 -> smem st !! shared st = Some nx ->
  shared_pool_dtor (true :: rest) st = Undef.
Proof.
  intros Hs Hn. unfold shared_pool_dtor. simpl.
  destruct (Z.eqb_spec (shared st) 0); [contradiction|]. rewrite Hn.
  destruct (size (smem st) + S (length rest))%nat as [|k] eqn:Hk; [lia|].
  simpl. destruct (Z.eqb_spec (shared st) 0); [contradiction|].
  rewrite lookup_delete_eq. reflexivity.
Qed.

Definition sempty : SState := mkSState ∅ 0 ∅ [].

Definition int_sallocate := allocate 4 4 bump_new.
Definition int_sdeallocate := deallocate 4 4.

Example shared_round_trip_other_thread :
  match int_sallocate false 0%nat 1 sempty with
  | Ret (p, st1) =>
      match int_sdeallocate 1%nat p 1 st1 with
      | Ret st2 =>
          match int_sallocate false 2%nat 1 st2 with
          | Ret (p', st3) => p = 4096 /\ p' = 4096 /\ shared st3 = 0
          | _ => False
          end
      | _ => False
      end
  | _ => False
  end.
Proof. vm_compute. auto. Qed.

(** The shared pool holds [16 -> 32 -> nullptr]; no thread has a local
    list yet. *)
Definition st_sh : SState := mkSState (<[16 := 32]> (<[32 := 0]> ∅)) 16 ∅ [].

(** Thread 0's local list is [16 -> nullptr], the shared one
    [32 -> nullptr]. *)
Definition st_lp : SState :=
  mkSState (<[16 := 0]> (<[32 := 0]> ∅)) 32 (<[0%nat := 16]> ∅) [].

(** State after thread 0 allocates one [int] cell from empty pools. *)
Definition st_s1 : SState :=
  match int_sallocate false 0%nat 1 sempty with Ret (_, s) => s | _ => sempty end.

(** State after thread 0 allocates a bulk block of two [int]s. *)
Definition st_sb : SState :=
  match int_sallocate false 0%nat 2 sempty with Ret (_, s) => s | _ => sempty end.

Lemma st_sh_locals_empty : locals_empty st_sh.
Proof. intros u. unfold local. cbn [locals st_sh]. now rewrite lookup_empty. Qed.

(** State after thread 0 allocates one cell from [st_sh] while the weak
    exchange fails spuriously: [32] stays in thread 0's local pool. *)
Definition st_sh1 : SState :=
  match int_sallocate true 0%nat 1 st_sh with Ret (_, s) => s | _ => st_sh end.

Lemma sallocate_one_pops_shared_witness :
  local st_sh 0%nat = 0 /\
  exists st', int_sallocate true 0%nat 1 st_sh = Ret (16, st') /\
    shared st' = 0 /\ local st' 0%nat = 32.
Proof.
  assert (H : local st_sh 0%nat = 0) by reflexivity.
  split; [exact H|].
  destruct (proj1 (sallocate_one_pops_shared 4 4 bump_new true 0%nat st_sh H) 32
              ltac:(cbv; discriminate) ltac:(reflexivity)) as (st' & Ha & _ & _ & _ & Hs).
  exists st'. split; [exact Ha|exact Hs].
Defined.

Lemma sallocate_one_conserves_cells_witness :
  mchain (smem st_sh) (local st_sh 0%nat) [] /\
  mchain (smem st_sh) (shared st_sh) [16; 32] /\
  int_sallocate true 0%nat 1 st_sh = Ret (16, st_sh1) /\
  exists lt' ls', mchain (smem st_sh1) (local st_sh1 0%nat) lt' /\
    mchain (smem st_sh1) (shared st_sh1) ls' /\ [] ++ [16; 32] = 16 :: lt' ++ ls'.
Proof.
  assert (Ht : mchain (smem st_sh) (local st_sh 0%nat) []) by constructor.
  assert (Hs : mchain (smem st_sh) (shared st_sh) [16; 32]).
  { econstructor; [cbv; discriminate|reflexivity|].
    econstructor; [cbv; discriminate|reflexivity|constructor]. }
  assert (Ha : int_sallocate true 0%nat 1 st_sh = Ret (16, st_sh1)) by reflexivity.
  split; [exact Ht|]. split; [exact Hs|]. split; [exact Ha|].
  destruct (sallocate_one_conserves_cells 4 4 bump_new true 0%nat st_sh [] [16; 32] 16 st_sh1
              Ht Hs Ha) as (_ & _ & lt' & ls' & H1 & H2 & [(Hc & _)|(Hc & _)]);
    [discriminate|].
  exists lt', ls'. split; [exact H1|]. split; [exact H2|exact Hc].
Defined.

Lemma sdeallocate_one_pushes_shared_witness :
  4096 <> 0 /\
  exists st', int_sdeallocate 1%nat 4096 1 st_s1 = Ret st' /\
    shared st' = 4096 /\ smem st' !! 4096 = Some (shared st_s1).
Proof.
  assert (Hp : 4096 <> 0) by lia. split; [exact Hp|].
  destruct (sdeallocate_one_pushes_shared 4 4 1%nat 4096 st_s1 Hp)
    as (st' & Hd & Hs & Hn & _).
  exists st'. split; [exact Hd|]. split; [exact Hs|exact Hn].
Defined.

Lemma shared_round_trip_any_thread_witness :
  sys_nonnull bump_new /\ locals_empty st_sh /\ ((2%nat : tid) <> 0%nat \/ true = false) /\
  int_sallocate true 0%nat 1 st_sh = Ret (16, st_sh1) /\
  exists st2 st3, int_sdeallocate 1%nat 16 1 st_sh1 = Ret st2 /\
    int_sallocate false 2%nat 1 st2 = Ret (16, st3).
Proof.
  assert (Hnn : sys_nonnull bump_new) by exact bump_new_nonnull.
  assert (HL : locals_empty st_sh) by exact st_sh_locals_empty.
  assert (Hc : (2%nat : tid) <> 0%nat \/ true = false) by (left; discriminate).
  assert (Ha : int_sallocate true 0%nat 1 st_sh = Ret (16, st_sh1)) by reflexivity.
  split; [exact Hnn|]. split; [exact HL|]. split; [exact Hc|]. split; [exact Ha|].
  exact (shared_round_trip_any_thread 4 4 bump_new 0%nat 1%nat 2%nat true false st_sh 16 st_sh1
           Hnn HL Hc Ha).
Defined.

Lemma sbulk_sizes_match_witness :
  int_sallocate false 0%nat 2 sempty = Ret (4096, st_sb) /\
  int_sdeallocate 1%nat 4096 2 st_sb = Ret (dealloc 4 4 4096 2 st_sb) /\
  slog st_sb = [SysNew (size_mul 2 (sizeof_SNode 4 4)) 4096] /\
  slog (dealloc 4 4 4096 2 st_sb) =
    slog st_sb ++ [SysDelete 4096 (Some (size_mul 2 (sizeof_SNode 4 4)))].
Proof.
  assert (Ha : int_sallocate false 0%nat 2 sempty = Ret (4096, st_sb)) by reflexivity.
  assert (Hd : int_sdeallocate 1%nat 4096 2 st_sb = Ret (dealloc 4 4 4096 2 st_sb))
    by reflexivity.
  destruct (sbulk_sizes_match 4 4 bump_new false 0%nat 1%nat 2 sempty 4096 st_sb
              (dealloc 4 4 4096 2 st_sb) ltac:(lia) Ha Hd) as [H1 H2].
  split; [exact Ha|]. split; [exact Hd|]. split; [exact H1|exact H2].
Defined.

Lemma local_pool_dtor_returns_cells_witness :
  mchain (smem st_lp) (local st_lp 0%nat) [16] /\ mchain (smem st_lp) (shared st_lp) [32] /\
  exists st' l, local_pool_dtor false 0%nat st_lp = Ret st' /\
    mchain (smem st') (shared st') l /\ l ≡ₚ [16; 32] /\ locals st' !! 0%nat = None.
Proof.
  assert (H1 : mchain (smem st_lp) (local st_lp 0%nat) [16])
    by (econstructor; [cbv; discriminate|reflexivity|constructor]).
  assert (H2 : mchain (smem st_lp) (shared st_lp) [32])
    by (econstructor; [cbv; discriminate|reflexivity|constructor]).
  assert (Hdis : forall x, x ∈ [16] -> x ∉ [32]).
  { intros x Hx Hy. apply list_elem_of_singleton in Hx, Hy. lia. }
  split; [exact H1|]. split; [exact H2|].
  destruct (local_pool_dtor_returns_cells false 0%nat st_lp [16] [32] H1 H2 Hdis)
    as (st' & l & Hr & Hc & Hp & Hn & _).
  exists st', l. split; [exact Hr|]. split; [exact Hc|]. split; [exact Hp|exact Hn].
Defined.

Lemma shared_pool_dtor_releases_witness :
  mchain (smem st_sh) (shared st_sh) [16; 32] /\
  exists st', shared_pool_dtor [] st_sh = Ret st' /\ shared st' = 0 /\
    slog st' = [SysDelete 16 None; SysDelete 32 None].
Proof.
  assert (Hl : mchain (smem st_sh) (shared st_sh) [16; 32]).
  { econstructor; [cbv; discriminate|reflexivity|].
    econstructor; [cbv; discriminate|reflexivity|constructor]. }
  split; [exact Hl|].
  destruct (shared_pool_dtor_releases st_sh [16; 32] Hl) as (st' & Hr & Hs & Hlog).
  exists st'. split; [exact Hr|]. split; [exact Hs|exact Hlog].
Defined.

Lemma shared_pool_dtor_spurious_use_after_free_witness :
  shared st_sh <> 0 /\ smem st_sh !! shared st_sh = Some 32 /\
  shared_pool_dtor [true] st_sh = Undef.
Proof.
  assert (Hs : shared st_sh <> 0) by (cbv; discriminate).
  assert (Hn : smem st_sh !! shared st_sh = Some 32) by reflexivity.
  split; [exact Hs|]. split; [exact Hn|].
  exact (shared_pool_dtor_spurious_use_after_free st_sh 32 [] Hs Hn).
Defined.

End SharedVersion.
